(** * Rule 116: SPLIT requires MODE

    A shallow embedding of [app/app.py] (the scanner behind the
    [/remediate-array] endpoint) and the properties its specification
    states about it.

    Layout:
    - Python strings as sequences of code points, with the slice, count
      and replace operations the helpers use;
    - the part of the Unicode database that [re] consults, as an interface;
    - a backtracking matcher for the fragment of [re] the two patterns
      use, with [search] and [finditer];
    - [line_of_offset], [snippet_at], [scan_unit], [scan_rule];
    - the declarative reading of patterns, of "statement" and of "mode
      qualifier", and the units of the examples;
    - the matcher against that reading, then what [finditer] returns for
      [STMT_RE] and what [search] decides for [MODE_RE];
    - the properties of the specification, and their instances on
      concrete units. *)

From Stdlib Require Import String Ascii.
From Stdlib Require Import List NArith ZArith Bool Arith Lia Sorted.
Import ListNotations.

(** ** Python strings *)

(** A [str] is a sequence of Unicode code points. *)
Definition char := N.
Definition str := list char.

(** A source literal, all of whose characters are ASCII here. *)
Definition lit (s : string) : str := map N_of_ascii (list_ascii_of_string s).

Definition NL : char := 10%N.          (* "\n" *)
Definition DOT : char := 46%N.         (* "." *)
Definition BACKSLASH : char := 92%N.
Definition LOWER_N : char := 110%N.    (* "n" *)
Definition UNDERSCORE : char := 95%N.

(** [len(text)] *)
Definition len (text : str) : Z := Z.of_nat (length text).

(** [text[s:e]] with Python's treatment of negative and out-of-range
    bounds: a negative bound counts from the end, and both are clamped to
    [0 .. len(text)]. *)
Definition clamp_index (n i : Z) : Z :=
  let i := if (i <? 0)%Z then (i + n)%Z else i in
  Z.max 0 (Z.min n i).

Definition slice (text : str) (s e : Z) : str :=
  let s' := clamp_index (len text) s in
  let e' := clamp_index (len text) e in
  firstn (Z.to_nat (e' - s')) (skipn (Z.to_nat s') text).

(** The same with offsets that are natural numbers: the characters from
    offset [i] up to offset [j]. *)
Definition seg (text : str) (i j : nat) : str :=
  firstn (j - i) (skipn i text).

(** [text.count(c, s, e)] for a one-character needle [c]. *)
Definition count_char (c : char) (text : str) : Z :=
  Z.of_nat (length (filter (N.eqb c) text)).

Definition count (text : str) (c : char) (s e : Z) : Z :=
  count_char c (slice text s e).

(** [text.replace(c, by)] for a one-character needle [c]. *)
Definition replace (text : str) (c : char) (by_ : str) : str :=
  flat_map (fun x => if N.eqb x c then by_ else [x]) text.

(** ** The Unicode database, as far as [re] consults it

    [\b] and [\w] ask [Py_UNICODE_ISALNUM], [\s] asks [Py_UNICODE_ISSPACE],
    and case-insensitive literals compare [Py_UNICODE_TOLOWER] of the text
    character.  The tables belong to the interpreter, not to this
    repository, so the development is parametric in them. *)
Class UnicodeDB := {
  Py_UNICODE_ISALNUM : char -> bool;
  Py_UNICODE_ISSPACE : char -> bool;
  Py_UNICODE_TOLOWER : char -> char
}.

(** ** Records of the service *)

Module Unit.
Record t := mk {
  pgm_name : str;
  inc_name : str;
  type : str;
  name : option str;
  start_line : option Z;
  end_line : option Z;
  code : option str
}.
End Unit.

(** The dictionaries [scan_unit] appends to [findings]. *)
Module Finding.
Record t := mk {
  pgm_name : str;
  inc_name : str;
  type : str;
  name : option str;
  start_line : option Z;
  end_line : option Z;
  issue_type : str;
  severity : str;
  line : Z;
  message : str;
  suggestion : str;
  snippet : str
}.
End Finding.

(** [unit.model_dump()] extended with the key ["rule116_findings"]. *)
Module UnitResult.
Record t := mk {
  pgm_name : str;
  inc_name : str;
  type : str;
  name : option str;
  start_line : option Z;
  end_line : option Z;
  code : option str;
  rule116_findings : list Finding.t
}.
End UnitResult.

(** ** The regular-expression engine *)

(** One-character matchers.  Under [(?i)] a cased pattern letter is
    compiled to a test of the lowered text character against the lowered
    letter and its [_ignorecase_fixes]; a character without case, such as
    the full stop, is compared as it is. *)
Inductive atom :=
| Lit (p : char)        (* a literal character *)
| NotLit (p : char)     (* [^p] *)
| Space.                (* \s *)

Inductive regex :=
| Eps                   (* the empty pattern *)
| At (a : atom)
| Boundary              (* \b *)
| Cat (r1 r2 : regex)
| Alt (r1 r2 : regex)   (* r1|r2 *)
| Star (a : atom)       (* a*, greedy *)
| Plus (a : atom).      (* a+, greedy *)

(** The items of a pattern, one after the other. *)
Definition seq_of (rs : list regex) : regex := fold_right Cat Eps rs.

(** The characters of a literal word, one after the other. *)
Definition word (w : string) : regex :=
  seq_of (map (fun c => At (Lit c)) (lit w)).

Definition is_upper_ascii (p : char) : bool := ((65 <=? p) && (p <=? 90))%N.
Definition is_lower_ascii (p : char) : bool := ((97 <=? p) && (p <=? 122))%N.
Definition lower_ascii (p : char) : char :=
  if is_upper_ascii p then (p + 32)%N else p.
Definition iscased_ascii (p : char) : bool := is_upper_ascii p || is_lower_ascii p.

(** [sre_compile._ignorecase_fixes], restricted to the ASCII letters: the
    dotless i goes with [i], the long s with [s]. *)
Definition ignorecase_fixes (lo : char) : list char :=
  if (lo =? 105)%N then [305%N]
  else if (lo =? 115)%N then [383%N]
  else [].

Section Engine.
Context {U : UnicodeDB}.

Definition lit_match (p c : char) : bool :=
  if iscased_ascii p
  then existsb (N.eqb (Py_UNICODE_TOLOWER c))
               (lower_ascii p :: ignorecase_fixes (lower_ascii p))
  else (c =? p)%N.

Definition atom_match (a : atom) (c : char) : bool :=
  match a with
  | Lit p => lit_match p c
  | NotLit p => negb (c =? p)%N
  | Space => Py_UNICODE_ISSPACE c
  end.

(** [\w] *)
Definition is_word (c : char) : bool :=
  Py_UNICODE_ISALNUM c || (c =? UNDERSCORE)%N.

Section OnText.
Variable s : str.

Definition word_before (i : nat) : bool :=
  match i with
  | O => false
  | S j => match nth_error s j with Some c => is_word c | None => false end
  end.

Definition word_here (i : nat) : bool :=
  match nth_error s i with Some c => is_word c | None => false end.

(** [\b] at offset [i] *)
Definition at_boundary (i : nat) : bool :=
  negb (Bool.eqb (word_here i) (word_before i)).

(** Greedy repetition of an atom over the rest of the text: take the
    longest run first and give characters back one by one while the
    continuation fails. *)
Fixpoint repeat_greedy (a : atom) (rest : str) (i : nat)
         (k : nat -> option nat) : option nat :=
  match rest with
  | c :: rest' =>
      if atom_match a c
      then match repeat_greedy a rest' (S i) k with
           | Some e => Some e
           | None => k i
           end
      else k i
  | [] => k i
  end.

(** The backtracking matcher, in continuation-passing style: [k] is
    what is left of the pattern, and returns the end of the match. *)
Fixpoint run (r : regex) (i : nat) (k : nat -> option nat) : option nat :=
  match r with
  | Eps => k i
  | At a =>
      match nth_error s i with
      | Some c => if atom_match a c then k (S i) else None
      | None => None
      end
  | Boundary => if at_boundary i then k i else None
  | Cat r1 r2 => run r1 i (fun j => run r2 j k)
  | Alt r1 r2 =>
      match run r1 i k with
      | Some e => Some e
      | None => run r2 i k
      end
  | Star a => repeat_greedy a (skipn i s) i k
  | Plus a =>
      match nth_error s i with
      | Some c =>
          if atom_match a c
          then repeat_greedy a (skipn (S i) s) (S i) k
          else None
      | None => None
      end
  end.

(** One attempt at offset [i].  After an empty match the scanner sets
    [must_advance]: the next attempt at the same offset may not end
    where it starts. *)
Definition match_at (r : regex) (i : nat) (must_advance : bool) : option nat :=
  run r i (fun e => if must_advance && (e =? i) then None else Some e).

(** Try the offsets [i], [i+1], ... ([n] of them); only the first
    attempt is under [must_advance]. *)
Fixpoint search_from (r : regex) (n i : nat) (must_advance : bool)
  : option (nat * nat) :=
  match n with
  | O => None
  | S n' =>
      match match_at r i must_advance with
      | Some e => Some (i, e)
      | None => search_from r n' (S i) false
      end
  end.

Definition search_pos (r : regex) (pos : nat) (must_advance : bool)
  : option (nat * nat) :=
  search_from r (S (length s) - pos) pos must_advance.

(** The scanner loop of [finditer]: every match is searched from the
    end of the one before. *)
Fixpoint finditer_loop (r : regex) (fuel pos : nat) (must_advance : bool)
  : list (nat * nat) :=
  match fuel with
  | O => []
  | S fuel' =>
      match search_pos r pos must_advance with
      | Some (i, e) => (i, e) :: finditer_loop r fuel' e (e =? i)
      | None => []
      end
  end.
End OnText.

(** [r.search(s)]: the span of the first match, if any. *)
Definition search (r : regex) (s : str) : option (nat * nat) :=
  search_pos s r 0 false.

(** [r.finditer(s)]: the spans [(m.start(), m.end())], in order.  The
    loop runs at most twice for every offset of the text, so the fuel is
    never used up. *)
Definition finditer (r : regex) (s : str) : list (nat * nat) :=
  finditer_loop s r (2 * length s + 2) 0 false.
End Engine.

(** ** The scanner *)

(** Computations over the unit object a call was handed: a pydantic model
    is mutable, so the object is threaded through and returned next to the
    result. *)
Definition Py (A : Type) : Type := Unit.t -> A * Unit.t.

Definition ret {A} (a : A) : Py A := fun u => (a, u).

Definition bind {A B} (c : Py A) (f : A -> Py B) : Py B :=
  fun u => let (a, u') := c u in f a u'.

(** Reading an attribute of the unit. *)
Definition attr {A} (f : Unit.t -> A) : Py A := fun u => (f u, u).

Notation "x <- c ;; k" := (bind c (fun x => k))
  (at level 61, c at next level, right associativity).

(** [for x in xs: acc = body(x, acc)] *)
Fixpoint for_each {A B} (xs : list A) (acc : B) (body : A -> B -> Py B) : Py B :=
  match xs with
  | [] => ret acc
  | x :: xs' => acc' <- body x acc ;; for_each xs' acc' body
  end.

(** [v or d] on an [Optional[str]]: [None] and the empty string are falsy. *)
Definition or_str (v : option str) (d : str) : str :=
  match v with
  | None => d
  | Some [] => d
  | Some t => t
  end.

(** Truth value of a list. *)
Definition truthy {A} (l : list A) : bool :=
  match l with [] => false | _ :: _ => true end.

Definition is_some {A} (o : option A) : bool :=
  match o with Some _ => true | None => false end.

(** Return 1-based line number for a 0-based character offset. *)
Definition line_of_offset (text : str) (off : Z) : Z :=
  (count text NL 0 off + 1)%Z.

(** Return a short context snippet with escaped newlines. *)
Definition snippet_at (text : str) (start end_ : Z) : str :=
  let s := Z.max 0 (start - 60) in
  let e := Z.min (len text) (end_ + 60) in
  replace (slice text s e) NL [BACKSLASH; LOWER_N].

(** [(?is)\bSPLIT\b[^.]*\.] *)
Definition STMT_RE : regex :=
  seq_of [Boundary; word "SPLIT"; Boundary; Star (NotLit DOT); At (Lit DOT)].

(** [(?i)\bIN\s+(CHARACTER|BYTE)\s+MODE\b] *)
Definition MODE_RE : regex :=
  seq_of [Boundary; word "IN"; Plus Space;
          Alt (word "CHARACTER") (word "BYTE");
          Plus Space; word "MODE"; Boundary].

Definition ISSUE_TYPE : str := lit "SplitWithoutMode".
Definition SEVERITY : str := lit "warning".
Definition MESSAGE : str :=
  lit "SPLIT without MODE. Specify IN CHARACTER MODE (text) or IN BYTE MODE (binary).".
Definition SUGGESTION : str :=
  lit "SPLIT <text> AT <sep> INTO <f1> <f2> ... IN CHARACTER MODE."
  ++ [NL] ++ lit "* or *" ++ [NL]
  ++ lit "SPLIT <xbin> AT <xsep> INTO <x1> <x2> ... IN BYTE MODE. Specify IN CHARACTER MODE (text) or IN BYTE MODE (binary).".

(** [unit.model_dump()] with [obj["rule116_findings"] = findings]. *)
Definition model_dump_with (findings : list Finding.t) : Py UnitResult.t :=
  fun u =>
    ({| UnitResult.pgm_name := Unit.pgm_name u;
        UnitResult.inc_name := Unit.inc_name u;
        UnitResult.type := Unit.type u;
        UnitResult.name := Unit.name u;
        UnitResult.start_line := Unit.start_line u;
        UnitResult.end_line := Unit.end_line u;
        UnitResult.code := Unit.code u;
        UnitResult.rule116_findings := findings |}, u).

Section Scanner.
Context {U : UnicodeDB}.

(** The body of the loop over [STMT_RE.finditer(src)]. *)
Definition scan_match (src : str) (m : nat * nat) (findings : list Finding.t)
  : Py (list Finding.t) :=
  let start := Z.of_nat (fst m) in
  let end_ := Z.of_nat (snd m) in
  let stmt := slice src start end_ in
  let has_mode := is_some (search MODE_RE stmt) in
  if negb has_mode then
    pgm_name <- attr Unit.pgm_name ;;
    inc_name <- attr Unit.inc_name ;;
    type <- attr Unit.type ;;
    name <- attr Unit.name ;;
    start_line <- attr Unit.start_line ;;
    end_line <- attr Unit.end_line ;;
    ret (findings ++
         [ {| Finding.pgm_name := pgm_name;
              Finding.inc_name := inc_name;
              Finding.type := type;
              Finding.name := name;
              Finding.start_line := start_line;
              Finding.end_line := end_line;
              Finding.issue_type := ISSUE_TYPE;
              Finding.severity := SEVERITY;
              Finding.line := line_of_offset src start;
              Finding.message := MESSAGE;
              Finding.suggestion := SUGGESTION;
              Finding.snippet := snippet_at src start end_ |} ])
  else ret findings.

Definition scan_unit : Py UnitResult.t :=
  code <- attr Unit.code ;;
  let src := or_str code [] in
  findings <- for_each (finditer STMT_RE src) [] (scan_match src) ;;
  model_dump_with findings.

(** The loop of the endpoint; the second component is the units after
    the calls. *)
Fixpoint scan_rule_loop (units : list Unit.t) (results : list UnitResult.t)
  : list UnitResult.t * list Unit.t :=
  match units with
  | [] => (results, [])
  | u :: rest =>
      let (res, u') := scan_unit u in
      let results' :=
        if truthy (UnitResult.rule116_findings res)
        then results ++ [res] else results in
      let (out, rest') := scan_rule_loop rest results' in
      (out, u' :: rest')
  end.

Definition scan_rule (units : list Unit.t) : list UnitResult.t * list Unit.t :=
  scan_rule_loop units [].
End Scanner.

(** ** The declarative reading of patterns, statements and qualifiers *)

Section Declarative.
Context {U : UnicodeDB}.

Section OfText.
Variable s : str.

(** Every offset from [i] up to [j] holds a character that [a] accepts. *)
Definition all_between (a : atom) (i j : nat) : Prop :=
  forall p, i <= p < j ->
    exists c, nth_error s p = Some c /\ atom_match a c = true.

(** [Matches r i j]: the pattern [r] can match the text from offset [i]
    to offset [j]. *)
Inductive Matches : regex -> nat -> nat -> Prop :=
| MEps i : Matches Eps i i
| MAt a i c :
    nth_error s i = Some c -> atom_match a c = true ->
    Matches (At a) i (S i)
| MBoundary i : at_boundary s i = true -> Matches Boundary i i
| MCat r1 r2 i j k :
    Matches r1 i j -> Matches r2 j k -> Matches (Cat r1 r2) i k
| MAltL r1 r2 i j : Matches r1 i j -> Matches (Alt r1 r2) i j
| MAltR r1 r2 i j : Matches r2 i j -> Matches (Alt r1 r2) i j
| MStar a i j : i <= j -> all_between a i j -> Matches (Star a) i j
| MPlus a i j : i < j -> all_between a i j -> Matches (Plus a) i j.

(** [Scan r pos spans]: [spans] are the matches that a scan starting at
    [pos] meets, each the first one at or after the end of the one
    before. *)
Inductive Scan (r : regex) : nat -> list (nat * nat) -> Prop :=
| Scan_done pos :
    (forall q, pos <= q <= length s -> match_at s r q false = None) ->
    Scan r pos []
| Scan_more pos p e spans :
    pos <= p <= length s ->
    match_at s r p false = Some e ->
    (forall q, pos <= q < p -> match_at s r q false = None) ->
    Scan r e spans ->
    Scan r pos ((p, e) :: spans).

(** What a scan from [pos] needs: two rounds for every offset left, one
    fewer when the scan must advance. *)
Definition rounds (pos : nat) (must : bool) : nat :=
  2 * (S (length s) - pos) - (if must then 1 else 0).

(** The same reading of patterns on the matched text [t], which stands
    at offset [i] of [s]. *)
Fixpoint Shape (r : regex) (t : str) (i : nat) : Prop :=
  match r with
  | Eps => t = []
  | At a => exists c, t = [c] /\ atom_match a c = true
  | Boundary => t = [] /\ at_boundary s i = true
  | Cat r1 r2 =>
      exists t1 t2, t = t1 ++ t2 /\ Shape r1 t1 i /\ Shape r2 t2 (i + length t1)
  | Alt r1 r2 => Shape r1 t i \/ Shape r2 t i
  | Star a => Forall (fun c => atom_match a c = true) t
  | Plus a => t <> [] /\ Forall (fun c => atom_match a c = true) t
  end.
End OfText.

(** [t] is the word [w], up to case. *)
Definition ci_eq (w : string) (t : str) : Prop :=
  Forall2 (fun p c => lit_match p c = true) (lit w) t.

(** A non-empty run of whitespace. *)
Definition blank (t : str) : Prop :=
  t <> [] /\ Forall (fun c => Py_UNICODE_ISSPACE c = true) t.

(** A SPLIT statement of [s] from offset [i] to offset [e]: the keyword
    as a whole word, then everything up to and including the next full
    stop. *)
Definition statement (s : str) (i e : nat) : Prop :=
  exists kw body,
    seg s i e = kw ++ body ++ [DOT] /\ e <= length s /\
    ci_eq "SPLIT" kw /\ ~ In DOT body /\
    at_boundary s i = true /\ at_boundary s (i + 5) = true.

(** The mode qualifier in [t] from offset [i] to offset [j]. *)
Definition mode_qualifier_at (t : str) (i j : nat) : Prop :=
  exists kin sp1 alt sp2 kmode,
    seg t i j = kin ++ sp1 ++ alt ++ sp2 ++ kmode /\ j <= length t /\
    ci_eq "IN" kin /\ blank sp1 /\
    (ci_eq "CHARACTER" alt \/ ci_eq "BYTE" alt) /\
    blank sp2 /\ ci_eq "MODE" kmode /\
    at_boundary t i = true /\ at_boundary t j = true.

Definition has_mode_qualifier (t : str) : Prop :=
  exists i j, mode_qualifier_at t i j.

(** The text [scan_unit] scans, and the findings it returns. *)
Definition source_text (u : Unit.t) : str := or_str (Unit.code u) [].

Definition findings (u : Unit.t) : list Finding.t :=
  UnitResult.rule116_findings (fst (scan_unit u)).

(** The loop reports a match when [MODE_RE] finds nothing in its text. *)
Definition reports (src : str) (m : nat * nat) : bool :=
  negb (is_some (search MODE_RE (slice src (Z.of_nat (fst m)) (Z.of_nat (snd m))))).

(** The dictionary the loop appends for the match [m]. *)
Definition finding_of (u : Unit.t) (src : str) (m : nat * nat) : Finding.t :=
  {| Finding.pgm_name := Unit.pgm_name u;
     Finding.inc_name := Unit.inc_name u;
     Finding.type := Unit.type u;
     Finding.name := Unit.name u;
     Finding.start_line := Unit.start_line u;
     Finding.end_line := Unit.end_line u;
     Finding.issue_type := ISSUE_TYPE;
     Finding.severity := SEVERITY;
     Finding.line := line_of_offset src (Z.of_nat (fst m));
     Finding.message := MESSAGE;
     Finding.suggestion := SUGGESTION;
     Finding.snippet := snippet_at src (Z.of_nat (fst m)) (Z.of_nat (snd m)) |}.

(** Checks on a concrete text: every statement is met by the scan, and
    every statement holds the qualifier. *)
Definition all_found (src : str) : bool :=
  forallb (fun i =>
             match match_at src STMT_RE i false with
             | None => true
             | Some e =>
                 existsb (fun m => (fst m =? i) && (snd m =? e))
                         (finditer STMT_RE src)
             end)
          (seq 0 (S (length src))).

Definition all_qualified (src : str) : bool :=
  forallb (fun i =>
             match match_at src STMT_RE i false with
             | None => true
             | Some e => is_some (search MODE_RE (seg src i e))
             end)
          (seq 0 (S (length src))).
End Declarative.

(** Non-empty spans in source order, none starting before the end of the
    one before, the first not before [pos]. *)
Fixpoint in_order (pos : nat) (spans : list (nat * nat)) : Prop :=
  match spans with
  | [] => True
  | (p, e) :: rest => pos <= p /\ p < e /\ in_order e rest
  end.

(** The database restricted to the ASCII range: digits and letters are
    alphanumeric, the six ASCII blanks and the four separators are
    whitespace, and the capital letters have lower-case forms. *)
#[export] Instance ascii_db : UnicodeDB := {|
  Py_UNICODE_ISALNUM c :=
    ((48 <=? c) && (c <=? 57))%N || is_upper_ascii c || is_lower_ascii c;
  Py_UNICODE_ISSPACE c :=
    ((9 <=? c) && (c <=? 13))%N || ((28 <=? c) && (c <=? 32))%N;
  Py_UNICODE_TOLOWER c := lower_ascii c
|}.

Definition unit_of (src : string) : Unit.t :=
  Unit.mk (lit "ZPROG") (lit "ZINC") (lit "form") (Some (lit "main"))
          (Some 10%Z) (Some 20%Z) (Some (lit src)).

Definition NLs : string := String (ascii_of_nat 10) EmptyString.

(** Two databases that agree on every character of a text. *)
Definition agree_on (U1 U2 : UnicodeDB) (s : str) : Prop :=
  Forall (fun c =>
            @Py_UNICODE_ISALNUM U1 c = @Py_UNICODE_ISALNUM U2 c /\
            @Py_UNICODE_ISSPACE U1 c = @Py_UNICODE_ISSPACE U2 c /\
            @Py_UNICODE_TOLOWER U1 c = @Py_UNICODE_TOLOWER U2 c) s.

(** A database that is right on the ASCII range, as Python's is. *)
Definition ascii_faithful (U : UnicodeDB) : Prop :=
  forall c, (c < 128)%N ->
    @Py_UNICODE_ISALNUM U c = @Py_UNICODE_ISALNUM ascii_db c /\
    @Py_UNICODE_ISSPACE U c = @Py_UNICODE_ISSPACE ascii_db c /\
    @Py_UNICODE_TOLOWER U c = @Py_UNICODE_TOLOWER ascii_db c.

Definition is_ascii (s : str) : bool := forallb (fun c => (c <? 128)%N) s.

(** A statement without the qualifier, one with it, and a third without,
    on lines 2, 3 and 5. *)
Definition three_statements : Unit.t :=
  unit_of ("DATA lv TYPE string." ++ NLs
           ++ "SPLIT lv AT '/' INTO a b." ++ NLs
           ++ "SPLIT lv AT '/' INTO a b IN CHARACTER MODE." ++ NLs ++ NLs
           ++ "  split lv" ++ NLs ++ "    at '-' into c d.").

Definition compliant : Unit.t :=
  unit_of "SPLIT lv_text AT '/' INTO lv1 lv2 IN CHARACTER MODE.".

Definition non_compliant : Unit.t :=
  unit_of "SPLIT lv_text AT '/' INTO lv1 lv2.".

Definition unterminated : Unit.t :=
  unit_of "SPLIT lv_text AT '/' INTO lv1 lv2".

(** Atoms and patterns that do not tell an ASCII capital from its small
    letter: a negated literal must not be a letter. *)
Definition case_blind_atom (a : atom) : bool :=
  match a with
  | Lit _ => true
  | NotLit p => negb (iscased_ascii p)
  | Space => true
  end.

Fixpoint case_blind (r : regex) : bool :=
  match r with
  | Eps | Boundary => true
  | At a | Star a | Plus a => case_blind_atom a
  | Cat r1 r2 | Alt r1 r2 => case_blind r1 && case_blind r2
  end.

(** The text with its ASCII capitals made small. *)
Definition lower_text (s : str) : str := map lower_ascii s.

(** A span moved [n] characters to the right. *)
Definition shift (n : nat) (m : nat * nat) : nat * nat :=
  (fst m + n, snd m + n).

(** A comment that names the keyword and the qualifier, then a statement
    without the qualifier on line 2, from offset 32 to offset 57. *)
Definition after_comment : Unit.t :=
  unit_of ("* SPLIT needs IN CHARACTER MODE" ++ NLs
           ++ "SPLIT lv AT '/' INTO a b.").

Definition without_code : Unit.t :=
  Unit.mk (lit "ZPROG") (lit "ZINC") (lit "form") None None None None.

(** [non_compliant] followed by a comment line without a full stop. *)
Definition trailer : string := NLs ++ "* end of the form".

Definition with_trailer : Unit.t :=
  unit_of ("SPLIT lv_text AT '/' INTO lv1 lv2." ++ trailer).

(** [non_compliant] in small letters. *)
Definition non_compliant_small : Unit.t :=
  unit_of "split lv_text at '/' into lv1 lv2.".

(** A text in two parts, the first of which ends with a full stop. *)
Definition first_part_body : string :=
  "DATA lv TYPE string." ++ NLs ++ "SPLIT lv AT '/' INTO a b".

Definition second_part_text : string :=
  NLs ++ "SPLIT lv AT '-' INTO c d." ++ NLs ++ "SPLIT lv AT '+' INTO e f.".

Definition first_part : Unit.t := unit_of (first_part_body ++ ".").

Definition second_part : Unit.t := unit_of second_part_text.

Definition both_parts : Unit.t :=
  unit_of ((first_part_body ++ ".") ++ second_part_text).

(** ** The matcher against a declarative reading of patterns *)

Section EngineFacts.
Context {U : UnicodeDB}.
Variable s : str.

Lemma skipn_cons_nth (i : nat) (c : char) (rest : str) :
  skipn i s = c :: rest -> nth_error s i = Some c /\ skipn (S i) s = rest.
Proof.
  revert i. generalize s as t.
  induction t as [|x t IH]; intros i H.
  - destruct i; discriminate.
  - destruct i as [|i]; simpl in *.
    + inversion H; subst. auto.
    + apply IH in H. destruct H as [H1 H2]. split; [exact H1|].
      destruct t; [destruct i; discriminate|exact H2].
Qed.

Lemma skipn_nil_nth (i : nat) : skipn i s = [] -> nth_error s i = None.
Proof.
  intros H. apply nth_error_None.
  pose proof (length_skipn i s) as L. rewrite H in L. simpl in L. lia.
Qed.

Lemma all_between_empty a i : all_between s a i i.
Proof. intros p Hp. lia. Qed.

Lemma all_between_step a i j c :
  nth_error s i = Some c -> atom_match a c = true ->
  all_between s a (S i) j -> all_between s a i j.
Proof.
  intros Hc Ha H p Hp.
  destruct (Nat.eq_dec p i) as [->|Hne]; [eauto|].
  apply H. lia.
Qed.

Lemma all_between_tail a i j :
  i < j -> all_between s a i j -> all_between s a (S i) j.
Proof. intros _ H p Hp. apply H. lia. Qed.

Lemma repeat_greedy_sound a rest i k e :
  skipn i s = rest ->
  repeat_greedy a rest i k = Some e ->
  exists j, i <= j /\ all_between s a i j /\ k j = Some e.
Proof.
  revert i. induction rest as [|c rest IH]; intros i Hs H; simpl in H.
  - exists i. split; [lia|]. split; [apply all_between_empty|exact H].
  - apply skipn_cons_nth in Hs. destruct Hs as [Hc Hs].
    destruct (atom_match a c) eqn:Ha.
    + destruct (repeat_greedy a rest (S i) k) as [e'|] eqn:Hr.
      * inversion H; subst e'.
        destruct (IH (S i) Hs Hr) as (j & Hj & Hall & Hk).
        exists j. split; [lia|]. split; [|exact Hk].
        eapply all_between_step; eauto.
      * exists i. split; [lia|]. split; [apply all_between_empty|exact H].
    + exists i. split; [lia|]. split; [apply all_between_empty|exact H].
Qed.

Lemma repeat_greedy_complete a rest i j k e :
  skipn i s = rest ->
  i <= j -> all_between s a i j -> k j = Some e ->
  exists e', repeat_greedy a rest i k = Some e'.
Proof.
  revert i. induction rest as [|c rest IH]; intros i Hs Hij Hall Hk; simpl.
  - destruct (Nat.eq_dec i j) as [->|Hne]; [eauto|].
    destruct (Hall i) as (c & Hc & _); [lia|].
    apply skipn_nil_nth in Hs. congruence.
  - apply skipn_cons_nth in Hs. destruct Hs as [Hc Hs].
    destruct (Nat.eq_dec i j) as [->|Hne].
    + destruct (atom_match a c); [|eauto].
      destruct (repeat_greedy a rest (S j) k); eauto.
    + destruct (Hall i) as (c' & Hc' & Ha); [lia|].
      assert (c' = c) by congruence. subst c'. rewrite Ha.
      destruct (IH (S i) Hs) as (e' & He'); [lia| |exact Hk|].
      * apply all_between_tail; [lia|exact Hall].
      * rewrite He'. eauto.
Qed.

(** What the matcher returns comes from a match of the pattern. *)
Lemma run_sound r : forall i k e,
  run s r i k = Some e -> exists j, Matches s r i j /\ k j = Some e.
Proof.
  induction r as [|a| |r1 IH1 r2 IH2|r1 IH1 r2 IH2|a|a]; intros i k e H; simpl in H.
  - exists i. split; [constructor|exact H].
  - destruct (nth_error s i) as [c|] eqn:Hc; [|discriminate].
    destruct (atom_match a c) eqn:Ha; [|discriminate].
    exists (S i). split; [econstructor; eauto|exact H].
  - destruct (at_boundary s i) eqn:Hb; [|discriminate].
    exists i. split; [constructor; exact Hb|exact H].
  - apply IH1 in H. destruct H as (j & M1 & H).
    apply IH2 in H. destruct H as (j' & M2 & H).
    exists j'. split; [econstructor; eauto|exact H].
  - destruct (run s r1 i k) as [e1|] eqn:H1.
    + inversion H; subst e1. apply IH1 in H1. destruct H1 as (j & M & Hk).
      exists j. split; [apply MAltL; exact M|exact Hk].
    + apply IH2 in H. destruct H as (j & M & Hk).
      exists j. split; [apply MAltR; exact M|exact Hk].
  - eapply repeat_greedy_sound in H; [|reflexivity].
    destruct H as (j & Hij & Hall & Hk).
    exists j. split; [apply MStar; assumption|exact Hk].
  - destruct (nth_error s i) as [c|] eqn:Hc; [|discriminate].
    destruct (atom_match a c) eqn:Ha; [|discriminate].
    eapply repeat_greedy_sound in H; [|reflexivity].
    destruct H as (j & Hij & Hall & Hk).
    exists j. split; [|exact Hk].
    apply MPlus; [lia|]. eapply all_between_step; eauto.
Qed.

(** Backtracking loses no match: when the pattern can match and what
    follows accepts the end, the matcher returns a result. *)
Lemma run_complete r : forall i j k e,
  Matches s r i j -> k j = Some e -> exists e', run s r i k = Some e'.
Proof.
  induction r as [|a| |r1 IH1 r2 IH2|r1 IH1 r2 IH2|a|a];
    intros i j k e M Hk; inversion M; subst; simpl.
  - eauto.
  - match goal with H : nth_error s i = Some _ |- _ => rewrite H end.
    match goal with H : atom_match a _ = true |- _ => rewrite H end. eauto.
  - match goal with H : at_boundary s _ = true |- _ => rewrite H end. eauto.
  - match goal with
    | M1 : Matches s r1 i ?m, M2 : Matches s r2 ?m j |- _ =>
        destruct (IH2 _ _ _ _ M2 Hk) as (e2 & H2);
        exact (IH1 _ _ _ _ M1 H2)
    end.
  - match goal with M1 : Matches s r1 i j |- _ =>
      destruct (IH1 _ _ _ _ M1 Hk) as (e1 & H1); rewrite H1; eauto end.
  - destruct (run s r1 i k); [eauto|].
    match goal with M2 : Matches s r2 i j |- _ => exact (IH2 _ _ _ _ M2 Hk) end.
  - eapply repeat_greedy_complete; eauto.
  - match goal with H : all_between s a i j |- _ =>
      destruct (H i) as (c & Hc & Ha); [lia|]; rewrite Hc, Ha;
      eapply (repeat_greedy_complete a _ (S i) j); eauto;
      apply all_between_tail; [lia|exact H]
    end.
Qed.
End EngineFacts.

Section SearchFacts.
Context {U : UnicodeDB}.
Variable s : str.

Lemma all_between_last a i j :
  i < j -> all_between s a i j -> j <= length s.
Proof.
  intros Hij H. destruct (H (j - 1)) as (c & Hc & _); [lia|].
  assert (j - 1 < length s) by (apply nth_error_Some; congruence). lia.
Qed.

Lemma Matches_le r i j : Matches s r i j -> i <= j.
Proof. induction 1; lia. Qed.

Lemma Matches_in_range r i j :
  Matches s r i j -> i <= length s -> j <= length s.
Proof.
  induction 1; intros Hi; auto.
  - assert (i < length s) by (apply nth_error_Some; congruence). lia.
  - destruct (Nat.eq_dec i j) as [->|]; [exact Hi|].
    eapply all_between_last; eauto. lia.
  - eapply all_between_last; eauto.
Qed.

Lemma match_at_sound r i e :
  match_at s r i false = Some e -> Matches s r i e.
Proof.
  unfold match_at. intros H. apply run_sound in H.
  destruct H as (j & M & Hk). simpl in Hk. congruence.
Qed.

Lemma match_at_complete r i j :
  Matches s r i j -> exists e, match_at s r i false = Some e.
Proof.
  intros M. unfold match_at.
  eapply run_complete; [exact M|reflexivity].
Qed.

Lemma match_at_none r i :
  match_at s r i false = None -> forall j, ~ Matches s r i j.
Proof.
  intros H j M. apply match_at_complete in M. destruct M; congruence.
Qed.

Lemma search_from_some r n : forall i p e,
  search_from s r n i false = Some (p, e) ->
  i <= p < i + n /\ match_at s r p false = Some e /\
  forall q, i <= q < p -> match_at s r q false = None.
Proof.
  induction n as [|n IH]; intros i p e H; simpl in H; [discriminate|].
  destruct (match_at s r i false) as [e'|] eqn:Hm.
  - inversion H; subst. split; [lia|]. split; [exact Hm|]. intros q Hq. lia.
  - apply IH in H. destruct H as (Hp & He & Hq).
    split; [lia|]. split; [exact He|].
    intros q Hq'. destruct (Nat.eq_dec q i) as [->|]; [exact Hm|].
    apply Hq. lia.
Qed.

Lemma search_from_none r n : forall i,
  search_from s r n i false = None ->
  forall q, i <= q < i + n -> match_at s r q false = None.
Proof.
  induction n as [|n IH]; intros i H q Hq; simpl in H; [lia|].
  destruct (match_at s r i false) as [e'|] eqn:Hm; [discriminate|].
  destruct (Nat.eq_dec q i) as [->|]; [exact Hm|].
  apply (IH _ H). lia.
Qed.

Lemma search_from_complete r n : forall i q e,
  i <= q < i + n -> match_at s r q false = Some e ->
  exists span, search_from s r n i false = Some span.
Proof.
  intros i q e Hq Hm.
  destruct (search_from s r n i false) as [span|] eqn:Hs; [eauto|].
  rewrite (search_from_none _ _ _ Hs q Hq) in Hm. discriminate.
Qed.

(** *** The fuel of [finditer] is enough for every pattern *)

Lemma match_at_range r i must e :
  i <= length s -> match_at s r i must = Some e ->
  i <= e <= length s /\ (must = true -> e <> i).
Proof.
  intros Hi H. unfold match_at in H. apply run_sound in H.
  destruct H as (j & M & Hk).
  pose proof (Matches_le _ _ _ M). pose proof (Matches_in_range _ _ _ M Hi).
  destruct must; simpl in Hk.
  - destruct (j =? i) eqn:E; [discriminate|]. apply Nat.eqb_neq in E.
    inversion Hk; subst. split; [lia|auto].
  - inversion Hk; subst. split; [lia|discriminate].
Qed.

Lemma search_from_range r n : forall i must p e,
  i + n <= S (length s) ->
  search_from s r n i must = Some (p, e) ->
  i <= p <= e /\ e <= length s /\ (p = i -> must = true -> e <> i).
Proof.
  induction n as [|n IH]; intros i must p e Hn H; simpl in H; [discriminate|].
  destruct (match_at s r i must) as [e'|] eqn:Hm.
  - inversion H; subst.
    apply match_at_range in Hm; [|lia]. destruct Hm as [Hr Hne].
    split; [lia|]. split; [lia|]. intros _. exact Hne.
  - apply IH in H; [|lia]. destruct H as (Hp & He & _).
    split; [lia|]. split; [exact He|]. intros Hpi. lia.
Qed.

Lemma finditer_loop_enough r : forall fuel fuel' pos must,
  rounds s pos must <= fuel -> rounds s pos must <= fuel' ->
  finditer_loop s r fuel pos must = finditer_loop s r fuel' pos must.
Proof.
  assert (Hout : forall fuel pos must,
             length s < pos -> finditer_loop s r fuel pos must = []).
  { intros [|fuel] pos must Hpos; simpl; [reflexivity|].
    unfold search_pos. replace (S (length s) - pos) with 0 by lia.
    reflexivity. }
  induction fuel as [|fuel IH]; intros fuel' pos must Hf Hf'.
  - assert (length s < pos).
    { unfold rounds in Hf. destruct must; lia. }
    rewrite !Hout by assumption. reflexivity.
  - destruct fuel' as [|fuel'].
    + assert (length s < pos).
      { unfold rounds in Hf'. destruct must; lia. }
      rewrite !Hout by assumption. reflexivity.
    + destruct (Nat.le_gt_cases pos (length s)) as [Hpos|Hpos];
        [|rewrite !Hout by assumption; reflexivity].
      simpl. unfold search_pos.
      destruct (search_from s r (S (length s) - pos) pos must)
        as [[p e]|] eqn:Hs; [|reflexivity].
      apply search_from_range in Hs; [|lia].
      destruct Hs as (Hp & He & Hne).
      f_equal. unfold rounds in *.
      destruct (e =? p) eqn:E.
      * apply Nat.eqb_eq in E. subst e.
        destruct must.
        -- assert (p <> pos) by (intros ->; apply Hne; reflexivity).
           apply IH; lia.
        -- apply IH; lia.
      * apply Nat.eqb_neq in E. apply IH; destruct must; lia.
Qed.

(** More fuel than [finditer] takes changes nothing. *)
Lemma finditer_fuel_enough r fuel :
  2 * length s + 2 <= fuel ->
  finditer_loop s r fuel 0 false = finditer r s.
Proof.
  intros H. unfold finditer. apply finditer_loop_enough; unfold rounds; lia.
Qed.

Section NonEmpty.
Variable r : regex.
Hypothesis nonempty :
  forall i e, i <= length s -> match_at s r i false = Some e -> i < e.

Lemma finditer_loop_Scan : forall fuel pos,
  length s + 2 <= fuel + pos ->
  Scan s r pos (finditer_loop s r fuel pos false).
Proof.
  induction fuel as [|fuel IH]; intros pos Hf; simpl.
  - apply Scan_done. intros q Hq. lia.
  - unfold search_pos.
    destruct (search_from s r (S (length s) - pos) pos false)
      as [[p e]|] eqn:Hs.
    + apply search_from_some in Hs. destruct Hs as (Hp & He & Hq).
      assert (Hlt : p < e) by (apply nonempty; [lia|exact He]).
      replace (e =? p) with false by (symmetry; apply Nat.eqb_neq; lia).
      apply Scan_more; auto; [lia|]. apply IH. lia.
    + apply Scan_done. intros q Hq.
      apply (search_from_none _ _ _ Hs). lia.
Qed.

Lemma finditer_Scan : Scan s r 0 (finditer r s).
Proof. unfold finditer. apply finditer_loop_Scan. lia. Qed.

Lemma Scan_in_order pos spans : Scan s r pos spans -> in_order pos spans.
Proof.
  induction 1; simpl; auto.
  split; [lia|]. split; [|assumption].
  apply nonempty; [lia|assumption].
Qed.
End NonEmpty.

Lemma Scan_matches r pos spans :
  Scan s r pos spans ->
  Forall (fun m => Matches s r (fst m) (snd m)) spans.
Proof.
  induction 1; constructor; auto. simpl. apply match_at_sound; assumption.
Qed.

(** Every match in the text is met by the scan or starts inside a match
    the scan met before. *)
Lemma Scan_complete r pos spans :
  Scan s r pos spans ->
  forall q j, pos <= q <= length s -> Matches s r q j ->
    (exists e, In (q, e) spans) \/
    (exists p e, In (p, e) spans /\ p < q < e).
Proof.
  induction 1 as [pos Hnone|pos p e spans Hp He Hq HS IH]; intros q j Hr M.
  - exfalso. eapply match_at_none; eauto.
  - destruct (Nat.lt_trichotomy q p) as [Hlt|[->|Hgt]].
    + exfalso. eapply match_at_none; [apply Hq|exact M]. lia.
    + left. exists e. left. reflexivity.
    + destruct (Nat.lt_ge_cases q e) as [Hin|Hout].
      * right. exists p, e. split; [left; reflexivity|lia].
      * destruct (IH q j) as [[e' Hin]|(p' & e' & Hin & Hb)]; auto; [lia| |].
        -- left. exists e'. right. exact Hin.
        -- right. exists p', e'. split; [right; exact Hin|exact Hb].
Qed.
End SearchFacts.

(** ** Segments of a text *)

Section SegFacts.
Variable s : str.

Lemma slice_seg (i j : nat) : slice s (Z.of_nat i) (Z.of_nat j) = seg s i j.
Proof.
  unfold slice, seg, clamp_index, len.
  destruct (Z.of_nat i <? 0)%Z eqn:Hi; [apply Z.ltb_lt in Hi; lia|].
  destruct (Z.of_nat j <? 0)%Z eqn:Hj; [apply Z.ltb_lt in Hj; lia|].
  destruct (Nat.le_gt_cases i (length s)) as [Hle|Hgt].
  - replace (Z.to_nat (Z.max 0 (Z.min (Z.of_nat (length s)) (Z.of_nat i))))
      with i by lia.
    destruct (Nat.le_gt_cases j (length s)) as [Hle'|Hgt'].
    + f_equal. lia.
    + rewrite !firstn_all2; auto; rewrite length_skipn; lia.
  - rewrite !skipn_all2 by lia. rewrite !firstn_nil. reflexivity.
Qed.

Lemma seg_length (i j : nat) :
  i <= j <= length s -> length (seg s i j) = j - i.
Proof.
  intros H. unfold seg. rewrite length_firstn, length_skipn. lia.
Qed.

Lemma seg_empty (i : nat) : seg s i i = [].
Proof. unfold seg. rewrite Nat.sub_diag. reflexivity. Qed.

Lemma seg_nth (i j n : nat) :
  nth_error (seg s i j) n = if n <? j - i then nth_error s (i + n) else None.
Proof. unfold seg. rewrite nth_error_firstn, nth_error_skipn. reflexivity. Qed.

Lemma firstn_plus {A} (a b : nat) (l : list A) :
  firstn (a + b) l = firstn a l ++ firstn b (skipn a l).
Proof.
  revert l. induction a as [|a IH]; intros l; simpl; [reflexivity|].
  destruct l as [|x l]; simpl.
  - rewrite firstn_nil. reflexivity.
  - rewrite IH. reflexivity.
Qed.

Lemma seg_app (i j k : nat) :
  i <= j <= k -> seg s i k = seg s i j ++ seg s j k.
Proof.
  intros H. unfold seg.
  replace (k - i) with ((j - i) + (k - j)) by lia.
  rewrite firstn_plus, skipn_skipn.
  replace (j - i + i) with j by lia. reflexivity.
Qed.

Lemma seg_one (i : nat) (c : char) :
  nth_error s i = Some c -> seg s i (S i) = [c].
Proof.
  intros H. unfold seg. replace (S i - i) with 1 by lia.
  destruct (skipn i s) as [|x rest] eqn:Hs.
  - apply skipn_nil_nth in Hs. congruence.
  - apply skipn_cons_nth in Hs. destruct Hs as [Hx _].
    simpl. congruence.
Qed.

Lemma seg_whole : seg s 0 (length s) = s.
Proof. unfold seg. rewrite Nat.sub_0_r. simpl. apply firstn_all. Qed.

Lemma seg_prefix (i : nat) : seg s 0 i = firstn i s.
Proof. unfold seg. rewrite Nat.sub_0_r. reflexivity. Qed.

Lemma app_inj_length {A} (l1 l1' l2 l2' : list A) :
  l1 ++ l2 = l1' ++ l2' -> length l1 = length l1' ->
  l1 = l1' /\ l2 = l2'.
Proof.
  revert l1'. induction l1 as [|x l1 IH]; intros [|y l1'] H L;
    simpl in *; try discriminate; auto.
  inversion H; subst. destruct (IH l1') as [-> ->]; auto.
Qed.

(** A segment that splits in two splits at an offset. *)
Lemma seg_split (i k : nat) (t1 t2 : str) :
  i <= k <= length s -> seg s i k = t1 ++ t2 ->
  let j := i + length t1 in
  j <= k /\ seg s i j = t1 /\ seg s j k = t2.
Proof.
  intros Hr H j.
  assert (L : length (seg s i k) = length t1 + length t2)
    by (rewrite H; apply length_app).
  rewrite seg_length in L by exact Hr.
  assert (Hj : j <= k) by (unfold j; lia).
  split; [exact Hj|].
  rewrite (seg_app i j k) in H by (unfold j; lia).
  apply app_inj_length in H; [exact H|].
  rewrite seg_length; unfold j; lia.
Qed.
End SegFacts.

Section Shapes.
Context {U : UnicodeDB}.
Variable s : str.

Lemma all_between_Forall a i j :
  i <= j <= length s ->
  (all_between s a i j <-> Forall (fun c => atom_match a c = true) (seg s i j)).
Proof.
  intros Hr. split.
  - intros H. apply Forall_forall. intros x Hx.
    apply In_nth_error in Hx. destruct Hx as [n Hn].
    rewrite seg_nth in Hn.
    destruct (n <? j - i) eqn:Hlt; [|discriminate].
    apply Nat.ltb_lt in Hlt.
    destruct (H (i + n)) as (c & Hc & Ha); [lia|]. congruence.
  - intros H p Hp.
    destruct (nth_error s p) as [c|] eqn:Hc.
    + exists c. split; [reflexivity|].
      rewrite Forall_forall in H. apply H.
      apply nth_error_In with (n := p - i). rewrite seg_nth.
      replace (p - i <? j - i) with true by (symmetry; apply Nat.ltb_lt; lia).
      replace (i + (p - i)) with p by lia. exact Hc.
    + apply nth_error_None in Hc. lia.
Qed.

Lemma Matches_Shape r : forall i j,
  i <= length s ->
  (Matches s r i j <-> i <= j <= length s /\ Shape s r (seg s i j) i).
Proof.
  induction r as [|a| |r1 IH1 r2 IH2|r1 IH1 r2 IH2|a|a]; intros i j Hi; simpl.
  - split.
    + intros M. inversion M; subst. rewrite seg_empty. auto.
    + intros [Hr Ht].
      assert (j = i).
      { pose proof (seg_length s i j Hr) as L. rewrite Ht in L. simpl in L. lia. }
      subst j. constructor.
  - split.
    + intros M. inversion M; subst.
      assert (i < length s) by (apply nth_error_Some; congruence).
      split; [lia|]. exists c. split; [apply seg_one; assumption|assumption].
    + intros (Hr & c & Ht & Ha).
      pose proof (seg_length s i j Hr) as L. rewrite Ht in L. simpl in L.
      assert (j = S i) by lia. subst j.
      apply MAt with (c := c); [|exact Ha].
      pose proof (seg_nth s i (S i) 0) as Hn. rewrite Ht in Hn.
      replace (0 <? S i - i) with true in Hn by (symmetry; apply Nat.ltb_lt; lia).
      rewrite Nat.add_0_r in Hn. simpl in Hn. auto.
  - split.
    + intros M. inversion M; subst. rewrite seg_empty. auto.
    + intros (Hr & Ht & Hb).
      assert (j = i).
      { pose proof (seg_length s i j Hr) as L. rewrite Ht in L. simpl in L. lia. }
      subst j. constructor. exact Hb.
  - split.
    + intros M. inversion M as [| | |? ? ? m ? M1 M2| | | |]; subst.
      apply IH1 in M1; [|exact Hi]. destruct M1 as (Hr1 & S1).
      apply IH2 in M2; [|lia]. destruct M2 as (Hr2 & S2).
      split; [lia|].
      exists (seg s i m), (seg s m j). split; [apply seg_app; lia|].
      split; [exact S1|]. rewrite seg_length by lia.
      replace (i + (m - i)) with m by lia. exact S2.
    + intros (Hr & t1 & t2 & Ht & S1 & S2).
      destruct (seg_split s i j t1 t2 Hr Ht) as (Hm & E1 & E2).
      apply MCat with (j := i + length t1).
      * apply IH1; [exact Hi|]. split; [lia|]. rewrite E1. exact S1.
      * apply IH2; [lia|]. split; [lia|]. rewrite E2. exact S2.
  - split.
    + intros M. inversion M; subst.
      * match goal with H : Matches s r1 i j |- _ =>
          apply IH1 in H; [|exact Hi]; destruct H; auto end.
      * match goal with H : Matches s r2 i j |- _ =>
          apply IH2 in H; [|exact Hi]; destruct H; auto end.
    + intros (Hr & [S1|S2]).
      * apply MAltL. apply IH1; auto.
      * apply MAltR. apply IH2; auto.
  - split.
    + intros M. inversion M; subst.
      assert (j <= length s).
      { eapply Matches_in_range; eauto. }
      split; [lia|]. apply all_between_Forall; [lia|assumption].
    + intros (Hr & HF). apply MStar; [lia|].
      apply all_between_Forall; assumption.
  - split.
    + intros M. inversion M; subst.
      assert (j <= length s).
      { eapply Matches_in_range; eauto. }
      split; [lia|]. split.
      * intros E. pose proof (seg_length s i j) as L.
        rewrite E in L. simpl in L. lia.
      * apply all_between_Forall; [lia|assumption].
    + intros (Hr & Hne & HF). apply MPlus.
      * destruct (Nat.eq_dec i j) as [->|]; [|lia].
        rewrite seg_empty in Hne. congruence.
      * apply all_between_Forall; assumption.
Qed.
End Shapes.

(** ** The two patterns against statements and qualifiers *)

Section Reading.
Context {U : UnicodeDB}.

Lemma Shape_letters s ps : forall t i,
  Shape s (seq_of (map (fun c => At (Lit c)) ps)) t i <->
  Forall2 (fun p c => lit_match p c = true) ps t.
Proof.
  induction ps as [|p ps IH]; intros t i; simpl.
  - split; [intros ->; constructor|intros H; inversion H; reflexivity].
  - split.
    + intros (t1 & t2 & -> & (c & -> & Hc) & Hs).
      apply IH in Hs. simpl. constructor; assumption.
    + intros H. inversion H as [|? c ? t' Hc Ht]; subst.
      exists [c], t'. split; [reflexivity|]. split; [eauto|].
      apply IH. exact Ht.
Qed.

Lemma Shape_word s w t i : Shape s (word w) t i <-> ci_eq w t.
Proof. apply Shape_letters. Qed.

Lemma ci_eq_length w t : ci_eq w t -> length t = String.length w.
Proof.
  intros H. apply Forall2_length in H. rewrite <- H. unfold lit.
  rewrite length_map. clear. induction w; simpl; auto.
Qed.

Lemma lit_match_dot c : lit_match DOT c = true <-> c = DOT.
Proof. unfold lit_match. simpl. apply N.eqb_eq. Qed.

Lemma not_dot_Forall body :
  Forall (fun c => atom_match (NotLit DOT) c = true) body <-> ~ In DOT body.
Proof.
  rewrite Forall_forall. simpl. split.
  - intros H Hin. apply H in Hin. rewrite N.eqb_refl in Hin. discriminate.
  - intros H x Hx. apply negb_true_iff, N.eqb_neq. intros ->. auto.
Qed.

Lemma Shape_STMT s t i :
  Shape s STMT_RE t i <->
  exists kw body,
    t = kw ++ body ++ [DOT] /\ ci_eq "SPLIT" kw /\ ~ In DOT body /\
    at_boundary s i = true /\ at_boundary s (i + 5) = true.
Proof.
  unfold STMT_RE. cbn [seq_of fold_right Shape]. split.
  - intros (t1 & t2 & -> & (-> & Hb1) & kw & t4 & -> & Hkw & t5 & t6 & ->
            & (-> & Hb2) & body & t8 & -> & Hbody & t9 & t10 & ->
            & (c & -> & Hc) & ->).
    apply Shape_word in Hkw. apply lit_match_dot in Hc. subst c.
    pose proof (ci_eq_length _ _ Hkw) as L. simpl in L, Hb2.
    rewrite L in Hb2. rewrite Nat.add_0_r in Hb2.
    exists kw, body. split; [reflexivity|].
    repeat split; auto. apply not_dot_Forall. exact Hbody.
  - intros (kw & body & -> & Hkw & Hbody & Hb1 & Hb2).
    pose proof (ci_eq_length _ _ Hkw) as L. simpl in L.
    exists [], (kw ++ body ++ [DOT]). split; [reflexivity|].
    split; [auto|].
    exists kw, (body ++ [DOT]). split; [reflexivity|].
    split; [apply Shape_word; exact Hkw|].
    exists [], (body ++ [DOT]). split; [reflexivity|]. split.
    { split; [reflexivity|]. simpl. rewrite L, Nat.add_0_r. exact Hb2. }
    exists body, [DOT]. split; [reflexivity|].
    split; [apply not_dot_Forall; exact Hbody|].
    exists [DOT], []. split; [reflexivity|]. split; [|reflexivity].
    exists DOT. split; [reflexivity|]. apply lit_match_dot. reflexivity.
Qed.

Lemma Matches_statement s i e :
  i <= length s -> (Matches s STMT_RE i e <-> statement s i e).
Proof.
  intros Hi. rewrite Matches_Shape by exact Hi. rewrite Shape_STMT.
  unfold statement. split.
  - intros (Hr & kw & body & H). exists kw, body. intuition.
  - intros (kw & body & Hseg & He & H). split; [|exists kw, body; intuition].
    split; [|exact He].
    destruct (Nat.le_gt_cases i e) as [|Hgt]; [assumption|].
    unfold seg in Hseg. replace (e - i) with 0 in Hseg by lia.
    apply (f_equal (@length _)) in Hseg. rewrite !length_app in Hseg.
    simpl in Hseg. lia.
Qed.

Lemma statement_indices s i e :
  statement s i e ->
  i + 6 <= e <= length s /\
  nth_error s (e - 1) = Some DOT /\
  forall p, i + 5 <= p < e - 1 -> nth_error s p <> Some DOT.
Proof.
  intros (kw & body & Hseg & He & Hkw & Hbody & _).
  pose proof (ci_eq_length _ _ Hkw) as Lk. simpl in Lk.
  assert (Hie : i <= e).
  { destruct (Nat.le_gt_cases i e) as [|Hgt]; [assumption|].
    unfold seg in Hseg. replace (e - i) with 0 in Hseg by lia.
    apply (f_equal (@length _)) in Hseg. rewrite !length_app in Hseg.
    simpl in Hseg. lia. }
  assert (L : e - i = 5 + length body + 1).
  { rewrite <- (seg_length s i e) by lia. rewrite Hseg, !length_app, Lk.
    reflexivity. }
  assert (Hn : forall p, i <= p < e ->
               nth_error s p = nth_error (kw ++ body ++ [DOT]) (p - i)).
  { intros p Hp. rewrite <- Hseg, seg_nth.
    replace (p - i <? e - i) with true by (symmetry; apply Nat.ltb_lt; lia).
    f_equal. lia. }
  split; [lia|]. split.
  - rewrite Hn by lia.
    rewrite nth_error_app2 by lia. rewrite nth_error_app2 by lia.
    replace (e - 1 - i - length kw - length body) with 0 by lia.
    reflexivity.
  - intros p Hp Hdot. rewrite Hn in Hdot by lia.
    rewrite nth_error_app2 in Hdot by lia.
    rewrite nth_error_app1 in Hdot by lia.
    apply nth_error_In in Hdot. auto.
Qed.

(** A statement ends at the first full stop after its keyword. *)
Lemma statement_end_unique s i e e' :
  statement s i e -> statement s i e' -> e = e'.
Proof.
  intros H H'. apply statement_indices in H, H'.
  destruct H as (Hr & Hd & Hn), H' as (Hr' & Hd' & Hn').
  destruct (Nat.lt_trichotomy e e') as [Hlt|[Heq|Hgt]]; [|exact Heq|].
  - exfalso. apply (Hn' (e - 1)); [lia|exact Hd].
  - exfalso. apply (Hn (e' - 1)); [lia|exact Hd'].
Qed.

Lemma statement_start s i e : statement s i e -> i < length s.
Proof. intros H. apply statement_indices in H. lia. Qed.

(** One attempt of [STMT_RE] at an offset returns the statement there. *)
Lemma STMT_match_at s i e :
  i <= length s ->
  (match_at s STMT_RE i false = Some e <-> statement s i e).
Proof.
  intros Hi. split.
  - intros H. apply Matches_statement; [exact Hi|].
    apply match_at_sound. exact H.
  - intros H. pose proof H as M. apply Matches_statement in M; [|exact Hi].
    destruct (match_at_complete _ _ _ _ M) as (e' & He').
    assert (statement s i e').
    { apply Matches_statement; [exact Hi|]. apply match_at_sound. exact He'. }
    rewrite He'. f_equal. eapply statement_end_unique; eauto.
Qed.

Lemma STMT_nonempty s i e :
  i <= length s -> match_at s STMT_RE i false = Some e -> i < e.
Proof.
  intros Hi H. apply STMT_match_at in H; [|exact Hi].
  apply statement_indices in H. lia.
Qed.

Lemma finditer_STMT_Scan s : Scan s STMT_RE 0 (finditer STMT_RE s).
Proof. apply finditer_Scan. intros i e. apply STMT_nonempty. Qed.

Lemma finditer_statements s :
  Forall (fun m => statement s (fst m) (snd m)) (finditer STMT_RE s).
Proof.
  pose proof (finditer_STMT_Scan s) as H.
  induction H as [|pos p e spans Hp He Hq HS IH]; constructor; auto.
  simpl. apply STMT_match_at; [lia|exact He].
Qed.

Lemma finditer_in_order s : in_order 0 (finditer STMT_RE s).
Proof.
  eapply Scan_in_order; [|apply finditer_STMT_Scan].
  intros i e. apply STMT_nonempty.
Qed.

Lemma finditer_complete s q j :
  statement s q j ->
  In (q, j) (finditer STMT_RE s) \/
  exists p e, In (p, e) (finditer STMT_RE s) /\ p < q < e.
Proof.
  intros H.
  assert (Hq : q <= length s) by (apply statement_start in H; lia).
  pose proof H as M. apply Matches_statement in M; [|exact Hq].
  destruct (Scan_complete _ _ _ _ (finditer_STMT_Scan s) q j) as [[e Hin]|Hin];
    [lia|exact M| |right; exact Hin].
  left. replace j with e; [exact Hin|].
  pose proof (finditer_statements s) as F. rewrite Forall_forall in F.
  apply F in Hin. simpl in Hin. eapply statement_end_unique; eauto.
Qed.

Lemma Shape_MODE s t i :
  Shape s MODE_RE t i <->
  exists kin sp1 alt sp2 kmode,
    t = kin ++ sp1 ++ alt ++ sp2 ++ kmode /\
    ci_eq "IN" kin /\ blank sp1 /\
    (ci_eq "CHARACTER" alt \/ ci_eq "BYTE" alt) /\
    blank sp2 /\ ci_eq "MODE" kmode /\
    at_boundary s i = true /\ at_boundary s (i + length t) = true.
Proof.
  unfold MODE_RE. cbn [seq_of fold_right Shape]. split.
  - intros (t1 & t2 & -> & (-> & Hb1) & kin & t4 & -> & Hin & sp1 & t6 & ->
            & Hsp1 & alt & t8 & -> & Halt & sp2 & t10 & -> & Hsp2
            & kmode & t12 & -> & Hmode & t13 & t14 & -> & (-> & Hb2) & ->).
    exists kin, sp1, alt, sp2, kmode.
    apply Shape_word in Hin, Hmode.
    rewrite !Shape_word in Halt.
    simpl. rewrite app_nil_r. split; [reflexivity|].
    repeat (split; [assumption|]).
    simpl in Hb2. rewrite !length_app.
    replace (i + (length kin + (length sp1 + (length alt +
               (length sp2 + length kmode)))))
      with (i + 0 + length kin + length sp1 + length alt
              + length sp2 + length kmode) by lia.
    exact Hb2.
  - intros (kin & sp1 & alt & sp2 & kmode & -> & Hin & Hsp1 & Halt & Hsp2
            & Hmode & Hb1 & Hb2).
    exists [], (kin ++ sp1 ++ alt ++ sp2 ++ kmode).
    split; [reflexivity|]. split; [auto|].
    exists kin, (sp1 ++ alt ++ sp2 ++ kmode). split; [reflexivity|].
    split; [apply Shape_word; exact Hin|].
    exists sp1, (alt ++ sp2 ++ kmode). split; [reflexivity|].
    split; [exact Hsp1|].
    exists alt, (sp2 ++ kmode). split; [reflexivity|].
    split; [rewrite !Shape_word; exact Halt|].
    exists sp2, kmode. split; [reflexivity|]. split; [exact Hsp2|].
    exists kmode, []. split; [rewrite app_nil_r; reflexivity|].
    split; [apply Shape_word; exact Hmode|].
    exists [], []. split; [reflexivity|]. split; [|reflexivity].
    split; [reflexivity|].
    rewrite !length_app in Hb2. simpl.
    replace (i + 0 + length kin + length sp1 + length alt
              + length sp2 + length kmode)
      with (i + (length kin + (length sp1 + (length alt +
               (length sp2 + length kmode))))) by lia.
    exact Hb2.
Qed.

Lemma Matches_mode t i j :
  i <= length t -> (Matches t MODE_RE i j <-> mode_qualifier_at t i j).
Proof.
  intros Hi. rewrite Matches_Shape by exact Hi. rewrite Shape_MODE.
  unfold mode_qualifier_at. split.
  - intros (Hr & kin & sp1 & alt & sp2 & kmode & Hseg & H).
    exists kin, sp1, alt, sp2, kmode.
    rewrite seg_length in H by exact Hr.
    replace (i + (j - i)) with j in H by lia. intuition.
  - intros (kin & sp1 & alt & sp2 & kmode & Hseg & Hj & Hin & H).
    assert (Hij : i <= j).
    { destruct (Nat.le_gt_cases i j) as [|Hgt]; [assumption|].
      unfold seg in Hseg. replace (j - i) with 0 in Hseg by lia.
      apply (f_equal (@length _)) in Hseg. rewrite !length_app in Hseg.
      apply ci_eq_length in Hin. simpl in Hin, Hseg. lia. }
    split; [lia|].
    exists kin, sp1, alt, sp2, kmode.
    rewrite seg_length by lia.
    replace (i + (j - i)) with j by lia. intuition.
Qed.

(** [MODE_RE.search(t) is not None] says that [t] holds the qualifier. *)
Lemma has_mode_iff t :
  is_some (search MODE_RE t) = true <-> has_mode_qualifier t.
Proof.
  unfold search, search_pos, has_mode_qualifier. split.
  - destruct (search_from t MODE_RE (S (length t) - 0) 0 false)
      as [[p e]|] eqn:Hs; [intros _|discriminate].
    apply search_from_some in Hs. destruct Hs as (Hp & He & _).
    exists p, e. apply Matches_mode; [lia|].
    apply match_at_sound. exact He.
  - intros (i & j & H).
    assert (Hi : i <= length t).
    { destruct (Nat.le_gt_cases i (length t)) as [|Hgt]; [assumption|].
      destruct H as (kin & sp1 & alt & sp2 & kmode & Hseg & _ & Hin & _).
      unfold seg in Hseg. rewrite skipn_all2 in Hseg by lia.
      rewrite firstn_nil in Hseg.
      apply (f_equal (@length _)) in Hseg. rewrite !length_app in Hseg.
      apply ci_eq_length in Hin. simpl in Hin, Hseg. lia. }
    apply Matches_mode in H; [|exact Hi].
    apply match_at_complete in H. destruct H as (e & He).
    destruct (search_from_complete t MODE_RE (S (length t) - 0) 0 i e)
      as (span & ->); [lia|exact He|reflexivity].
Qed.

Lemma has_mode_false_iff t :
  is_some (search MODE_RE t) = false <-> ~ has_mode_qualifier t.
Proof.
  rewrite <- has_mode_iff. destruct (is_some (search MODE_RE t)); split;
    intros H; try discriminate; auto. exfalso. auto.
Qed.
End Reading.

(** ** The scanner as a function of the unit *)

Section ScanFacts.
Context {U : UnicodeDB}.

Lemma scan_match_run (u : Unit.t) (src : str) (m : nat * nat)
      (acc : list Finding.t) :
  scan_match src m acc u =
  ((if reports src m then acc ++ [finding_of u src m] else acc), u).
Proof.
  unfold scan_match, reports.
  destruct (negb (is_some (search MODE_RE
              (slice src (Z.of_nat (fst m)) (Z.of_nat (snd m)))))); reflexivity.
Qed.

Lemma for_each_scan_match (u : Unit.t) (src : str) (ms : list (nat * nat)) :
  forall acc,
    for_each ms acc (scan_match src) u =
    (acc ++ map (finding_of u src) (filter (reports src) ms), u).
Proof.
  induction ms as [|m ms IH]; intros acc; simpl.
  - unfold ret. rewrite app_nil_r. reflexivity.
  - unfold bind. rewrite scan_match_run, IH.
    destruct (reports src m); simpl; [|reflexivity].
    rewrite <- app_assoc. reflexivity.
Qed.

(** [scan_unit] leaves the unit as it was and returns its dump with one
    finding for every match that is reported. *)
Lemma scan_unit_run (u : Unit.t) :
  scan_unit u =
  (fst (model_dump_with
          (map (finding_of u (source_text u))
               (filter (reports (source_text u))
                       (finditer STMT_RE (source_text u)))) u), u).
Proof.
  unfold scan_unit, bind, attr. rewrite for_each_scan_match. reflexivity.
Qed.

Lemma findings_run (u : Unit.t) :
  findings u =
  map (finding_of u (source_text u))
      (filter (reports (source_text u)) (finditer STMT_RE (source_text u))).
Proof. unfold findings. rewrite scan_unit_run. reflexivity. Qed.

Lemma reports_iff (src : str) (i e : nat) :
  reports src (i, e) = true <-> ~ has_mode_qualifier (seg src i e).
Proof.
  unfold reports. simpl. rewrite slice_seg, negb_true_iff.
  apply has_mode_false_iff.
Qed.

(** The line of an offset: the newlines before it, plus one. *)
Lemma line_of_offset_nat (src : str) (i : nat) :
  line_of_offset src (Z.of_nat i) = (count_char NL (firstn i src) + 1)%Z.
Proof.
  unfold line_of_offset, count. change 0%Z with (Z.of_nat 0).
  rewrite slice_seg, seg_prefix. reflexivity.
Qed.

(** The excerpt of [snippet_at]: sixty characters to either side, within
    the text. *)
Lemma snippet_at_nat (src : str) (i e : nat) :
  snippet_at src (Z.of_nat i) (Z.of_nat e) =
  replace (seg src (i - 60) (Nat.min (length src) (e + 60))) NL
          [BACKSLASH; LOWER_N].
Proof.
  unfold snippet_at, len.
  replace (Z.max 0 (Z.of_nat i - 60)) with (Z.of_nat (i - 60)) by lia.
  replace (Z.min (Z.of_nat (length src)) (Z.of_nat e + 60))
    with (Z.of_nat (Nat.min (length src) (e + 60))) by lia.
  rewrite slice_seg. reflexivity.
Qed.

Lemma replace_no_newline (t : str) : ~ In NL (replace t NL [BACKSLASH; LOWER_N]).
Proof.
  unfold replace. rewrite in_flat_map. intros (x & _ & Hx).
  destruct (N.eqb x NL) eqn:E.
  - simpl in Hx. destruct Hx as [Hx|[Hx|[]]]; discriminate.
  - simpl in Hx. destruct Hx as [Hx|[]]. subst x.
    rewrite N.eqb_refl in E. discriminate.
Qed.
End ScanFacts.

(** ** Ordered spans and the checks on concrete texts *)

Section OrderFacts.
Context {U : UnicodeDB}.

Lemma in_order_weaken (pos pos' : nat) (spans : list (nat * nat)) :
  pos' <= pos -> in_order pos spans -> in_order pos' spans.
Proof.
  destruct spans as [|[p e] rest]; simpl; auto.
  intros Hle (Hp & He & Hrest). repeat split; auto. lia.
Qed.

Lemma in_order_filter (f : nat * nat -> bool) (spans : list (nat * nat)) :
  forall pos, in_order pos spans -> in_order pos (filter f spans).
Proof.
  induction spans as [|[p e] rest IH]; intros pos H; simpl; auto.
  simpl in H. destruct H as (Hp & He & Hrest).
  destruct (f (p, e)); simpl.
  - repeat split; auto.
  - apply in_order_weaken with (pos := e); [lia|auto].
Qed.

Lemma in_order_lower (spans : list (nat * nat)) :
  forall pos q e, in_order pos spans -> In (q, e) spans -> pos <= q.
Proof.
  induction spans as [|[p e0] rest IH]; intros pos q e H Hin; simpl in *.
  - contradiction.
  - destruct H as (Hp & He & Hrest). destruct Hin as [Heq|Hin].
    + inversion Heq; subst. exact Hp.
    + apply IH with (q := q) (e := e) in Hrest; [lia|exact Hin].
Qed.

Lemma in_order_NoDup (spans : list (nat * nat)) :
  forall pos, in_order pos spans -> NoDup spans.
Proof.
  induction spans as [|[p e] rest IH]; intros pos H; constructor.
  - simpl in H. destruct H as (_ & He & Hrest). intros Hin.
    pose proof (in_order_lower _ _ _ _ Hrest Hin). lia.
  - simpl in H. destruct H as (_ & _ & Hrest). eapply IH; eauto.
Qed.

(** Spans in order do not overlap. *)
Lemma in_order_disjoint (spans : list (nat * nat)) :
  forall pos p e q e',
    in_order pos spans -> In (p, e) spans -> In (q, e') spans ->
    p < q -> e <= q.
Proof.
  induction spans as [|[a b] rest IH]; intros pos p e q e' H Hp Hq Hlt;
    simpl in *; [contradiction|].
  destruct H as (Ha & Hb & Hrest).
  destruct Hp as [Hp|Hp], Hq as [Hq|Hq].
  - inversion Hp; inversion Hq; subst. lia.
  - inversion Hp; subst. eapply in_order_lower; eauto.
  - inversion Hq; subst.
    pose proof (in_order_lower _ _ _ _ Hrest Hp). lia.
  - eapply IH; eauto.
Qed.

(** Spans in order are fixed by their members. *)
Lemma in_order_unique (l1 : list (nat * nat)) :
  forall l2 pos pos',
    in_order pos l1 -> in_order pos' l2 ->
    (forall m, In m l1 <-> In m l2) -> l1 = l2.
Proof.
  induction l1 as [|[p e] r1 IH]; intros [|[q f] r2] pos pos' H1 H2 Hm.
  - reflexivity.
  - exfalso. apply (proj2 (Hm (q, f))). left. reflexivity.
  - exfalso. apply (proj1 (Hm (p, e))). left. reflexivity.
  - simpl in H1, H2. destruct H1 as (_ & He & Hr1). destruct H2 as (_ & Hf & Hr2).
    assert (Hhead : (p, e) = (q, f)).
    { destruct (proj1 (Hm (p, e)) (or_introl eq_refl)) as [E|Hin2];
        [symmetry; exact E|].
      destruct (proj2 (Hm (q, f)) (or_introl eq_refl)) as [E|Hin1];
        [exact E|].
      pose proof (in_order_lower _ _ _ _ Hr2 Hin2).
      pose proof (in_order_lower _ _ _ _ Hr1 Hin1). lia. }
    inversion Hhead; subst q f. f_equal.
    apply (IH r2 e e Hr1 Hr2). intros [i j]. split; intros Hin.
    + destruct (proj1 (Hm (i, j)) (or_intror Hin)) as [E|Hin2]; [|exact Hin2].
      inversion E; subst i j.
      pose proof (in_order_lower _ _ _ _ Hr1 Hin). lia.
    + destruct (proj2 (Hm (i, j)) (or_intror Hin)) as [E|Hin1]; [|exact Hin1].
      inversion E; subst i j.
      pose proof (in_order_lower _ _ _ _ Hr2 Hin). lia.
Qed.

Lemma existsb_span (spans : list (nat * nat)) (i e : nat) :
  existsb (fun m => (fst m =? i) && (snd m =? e)) spans = true ->
  In (i, e) spans.
Proof.
  intros H. apply existsb_exists in H. destruct H as ([a b] & Hin & Hab).
  simpl in Hab. apply andb_true_iff in Hab. destruct Hab as [Ha Hb].
  apply Nat.eqb_eq in Ha, Hb. subst. exact Hin.
Qed.

Lemma all_found_In (src : str) (i e : nat) :
  all_found src = true -> statement src i e -> In (i, e) (finditer STMT_RE src).
Proof.
  intros H Hst. unfold all_found in H. rewrite forallb_forall in H.
  pose proof (statement_start _ _ _ Hst) as Hi.
  specialize (H i). rewrite in_seq in H.
  apply STMT_match_at in Hst; [|lia]. rewrite Hst in H.
  apply existsb_span. apply H. lia.
Qed.

(** When the scan meets every statement, no statement starts inside
    another. *)
Lemma all_found_no_overlap (src : str) :
  all_found src = true ->
  forall q e' p e,
    statement src q e' -> ~ has_mode_qualifier (seg src q e') ->
    statement src p e -> ~ (p < q < e).
Proof.
  intros H q e' p e Hq _ Hp [Hlt Hin].
  pose proof (all_found_In _ _ _ H Hq) as Iq.
  pose proof (all_found_In _ _ _ H Hp) as Ip.
  pose proof (in_order_disjoint _ _ _ _ _ _ (finditer_in_order src) Ip Iq Hlt).
  lia.
Qed.

Lemma all_qualified_spec (src : str) :
  all_qualified src = true ->
  forall i e, statement src i e -> has_mode_qualifier (seg src i e).
Proof.
  intros H i e Hst. unfold all_qualified in H. rewrite forallb_forall in H.
  pose proof (statement_start _ _ _ Hst) as Hi.
  specialize (H i). rewrite in_seq in H.
  apply STMT_match_at in Hst; [|lia]. rewrite Hst in H.
  apply has_mode_iff. apply H. lia.
Qed.

Lemma count_char_app (c : char) (t1 t2 : str) :
  count_char c (t1 ++ t2) = (count_char c t1 + count_char c t2)%Z.
Proof.
  unfold count_char. rewrite filter_app, length_app. apply Nat2Z.inj_add.
Qed.

Lemma count_char_In (c : char) (t : str) :
  In c t -> (1 <= count_char c t)%Z.
Proof.
  intros H. unfold count_char.
  assert (Hf : In c (filter (N.eqb c) t)).
  { apply filter_In. split; [exact H|apply N.eqb_refl]. }
  destruct (filter (N.eqb c) t); [contradiction|]. simpl. lia.
Qed.

Lemma count_char_nonneg (c : char) (t : str) : (0 <= count_char c t)%Z.
Proof. unfold count_char. lia. Qed.

(** Every statement of an ordered list ends at a full stop of its own. *)
Lemma ordered_statements_bound (s : str) (spans : list (nat * nat)) :
  forall pos,
    in_order pos spans ->
    Forall (fun m => statement s (fst m) (snd m)) spans ->
    (Z.of_nat (length spans) <= count_char DOT (skipn pos s))%Z.
Proof.
  induction spans as [|[p e] rest IH]; intros pos Hord Hst; simpl length.
  - apply count_char_nonneg.
  - simpl in Hord. destruct Hord as (Hp & He & Hrest).
    inversion Hst as [|? ? Hm Hst']; subst. simpl in Hm.
    apply statement_indices in Hm. destruct Hm as (Hr & Hd & _).
    assert (E : skipn pos s = seg s pos e ++ skipn e s).
    { unfold seg. rewrite <- (firstn_skipn (e - pos) (skipn pos s)) at 1.
      rewrite skipn_skipn. replace (e - pos + pos) with e by lia.
      reflexivity. }
    rewrite E, count_char_app.
    assert (In DOT (seg s pos e)).
    { apply nth_error_In with (n := e - 1 - pos). rewrite seg_nth.
      replace (e - 1 - pos <? e - pos) with true
        by (symmetry; apply Nat.ltb_lt; lia).
      replace (pos + (e - 1 - pos)) with (e - 1) by lia. exact Hd. }
    pose proof (count_char_In _ _ H).
    specialize (IH e Hrest Hst'). lia.
Qed.
End OrderFacts.

(** ** A qualifier in a statement is a qualifier in every longer one *)

Section LongerStatement.
Context {U : UnicodeDB}.

Lemma seg_after_prefix (pre t : str) (i j : nat) :
  seg (pre ++ t) (i + length pre) (j + length pre) = seg t i j.
Proof.
  unfold seg. rewrite skipn_app.
  rewrite skipn_all2 by lia.
  replace (i + length pre - length pre) with i by lia.
  replace (j + length pre - (i + length pre)) with (j - i) by lia.
  reflexivity.
Qed.

Lemma nth_after_prefix (pre t : str) (k : nat) :
  nth_error (pre ++ t) (k + length pre) = nth_error t k.
Proof.
  rewrite nth_error_app2 by lia. f_equal. lia.
Qed.

Lemma at_boundary_after_prefix (pre t : str) (k : nat) :
  0 < k -> at_boundary (pre ++ t) (k + length pre) = at_boundary t k.
Proof.
  intros Hk. unfold at_boundary, word_here, word_before.
  rewrite nth_after_prefix.
  destruct k as [|k]; [lia|]. simpl.
  replace (k + length pre) with (k + length pre) by reflexivity.
  rewrite nth_after_prefix. reflexivity.
Qed.

(** No character is both an S and an I of a pattern. *)
Lemma not_S_and_I (c : char) :
  lit_match 83%N c = true -> lit_match 73%N c = true -> False.
Proof.
  unfold lit_match. simpl. intros HS HI.
  repeat rewrite orb_false_r in *.
  apply orb_true_iff in HS, HI.
  destruct HS as [HS|HS], HI as [HI|HI];
    apply N.eqb_eq in HS, HI; rewrite HS in HI; discriminate.
Qed.

Lemma statement_first_char (s : str) (q e : nat) :
  statement s q e ->
  exists c, nth_error (seg s q e) 0 = Some c /\ lit_match 83%N c = true.
Proof.
  intros (kw & body & Hseg & _ & Hkw & _). rewrite Hseg.
  unfold ci_eq in Hkw. simpl in Hkw.
  inversion Hkw as [|? c ? kw' Hc _]; subst. exists c. auto.
Qed.

Lemma qualifier_not_at_start (t : str) (c : char) (j : nat) :
  nth_error t 0 = Some c -> lit_match 83%N c = true ->
  ~ mode_qualifier_at t 0 j.
Proof.
  intros Hc HS (kin & sp1 & alt & sp2 & kmode & Hseg & _ & Hin & _).
  unfold ci_eq in Hin. simpl in Hin.
  inversion Hin as [|? c' ? kin' HI _]; subst.
  assert (E : nth_error (seg t 0 j) 0 = Some c') by (rewrite Hseg; reflexivity).
  rewrite seg_nth in E. destruct (0 <? j - 0); [|discriminate].
  change (0 + 0) with 0 in E. assert (c' = c) by congruence. subst c'.
  exact (not_S_and_I c HS HI).
Qed.

Lemma qualifier_after_prefix (pre t : str) (c : char) :
  nth_error t 0 = Some c -> lit_match 83%N c = true ->
  has_mode_qualifier t -> has_mode_qualifier (pre ++ t).
Proof.
  intros Hc HS (i & j & Hq).
  assert (Hi : 0 < i).
  { destruct i; [|lia]. exfalso.
    exact (qualifier_not_at_start t c j Hc HS Hq). }
  destruct Hq as (kin & sp1 & alt & sp2 & kmode & Hseg & Hj & Hin & Hsp1
                  & Halt & Hsp2 & Hmode & Hb1 & Hb2).
  assert (Hij : i <= j).
  { destruct (Nat.le_gt_cases i j) as [|Hgt]; [assumption|].
    unfold seg in Hseg. replace (j - i) with 0 in Hseg by lia.
    apply (f_equal (@length _)) in Hseg. rewrite !length_app in Hseg.
    apply ci_eq_length in Hin. simpl in Hin, Hseg. lia. }
  exists (i + length pre), (j + length pre).
  exists kin, sp1, alt, sp2, kmode.
  rewrite seg_after_prefix, length_app.
  rewrite !at_boundary_after_prefix by lia.
  repeat (split; [assumption|]). split; [lia|].
  repeat (split; [assumption|]). assumption.
Qed.

(** Two statements of which the second starts and ends inside the first
    end together, and the first holds every qualifier of the second. *)
Lemma qualifier_in_containing_statement (s : str) (p e q e' : nat) :
  statement s p e -> statement s q e' ->
  p <= q -> e' <= e ->
  has_mode_qualifier (seg s q e') -> has_mode_qualifier (seg s p e).
Proof.
  intros Hp Hq Hpq Hee Hmode.
  pose proof (statement_indices _ _ _ Hp) as (Hr & Hd & Hn).
  pose proof (statement_indices _ _ _ Hq) as (Hr' & Hd' & _).
  assert (e' = e).
  { destruct (Nat.eq_dec e' e) as [|Hne]; [assumption|].
    exfalso. apply (Hn (e' - 1)); [lia|exact Hd']. }
  subst e'.
  destruct (Nat.eq_dec p q) as [->|Hne]; [exact Hmode|].
  destruct (statement_first_char _ _ _ Hq) as (c & Hc & HS).
  rewrite (seg_app s p q e) by lia.
  eapply qualifier_after_prefix; eauto.
Qed.
End LongerStatement.

(** ** The properties of the specification *)

Section Properties.
Context {U : UnicodeDB}.

Lemma finditer_empty : finditer STMT_RE [] = [].
Proof. reflexivity. Qed.

Lemma findings_of_empty (u : Unit.t) : source_text u = [] -> findings u = [].
Proof. intros H. rewrite findings_run, H. reflexivity. Qed.

Lemma scan_rule_loop_run (units : list Unit.t) : forall acc,
  scan_rule_loop units acc =
  (acc ++ filter (fun r => truthy (UnitResult.rule116_findings r))
                 (map (fun u => fst (scan_unit u)) units),
   units).
Proof.
  induction units as [|u units IH]; intros acc; simpl.
  - rewrite app_nil_r. reflexivity.
  - rewrite scan_unit_run. simpl. rewrite IH.
    destruct (truthy _); simpl; [|reflexivity].
    rewrite <- app_assoc. reflexivity.
Qed.

Lemma reported_spans (src : str) :
  let spans := filter (reports src) (finditer STMT_RE src) in
  in_order 0 spans /\
  incl spans (finditer STMT_RE src) /\
  Forall (fun m => statement src (fst m) (snd m) /\
                   ~ has_mode_qualifier (seg src (fst m) (snd m))) spans.
Proof.
  intros spans. split; [|split].
  - apply in_order_filter, finditer_in_order.
  - intros m Hm. apply filter_In in Hm. tauto.
  - apply Forall_forall. intros [i e] Hm. apply filter_In in Hm.
    destruct Hm as [Hin Hrep]. simpl. split.
    + pose proof (finditer_statements src) as F.
      rewrite Forall_forall in F. apply (F (i, e) Hin).
    + apply reports_iff. exact Hrep.
Qed.

(** C1, amended.  The findings of a scan are, in source order, one for
    each SPLIT statement that the scan meets and that holds no mode
    qualifier, and the line of each is the number of newline characters
    before the first character of its statement, plus one.  A SPLIT
    statement without a mode qualifier that does not start inside another
    SPLIT statement is one of them; when none starts inside another, they
    are all the SPLIT statements of the text without a mode qualifier. *)
Theorem one_finding_per_unqualified_statement (u : Unit.t) :
  let src := source_text u in
  exists spans,
    in_order 0 spans /\ NoDup spans /\
    (forall i e, In (i, e) spans <->
                 In (i, e) (finditer STMT_RE src) /\
                 ~ has_mode_qualifier (seg src i e)) /\
    Forall (fun m => statement src (fst m) (snd m)) spans /\
    length (findings u) = length spans /\
    map Finding.line (findings u) =
      map (fun m => (count_char NL (firstn (fst m) src) + 1)%Z) spans /\
    (forall i e,
        statement src i e -> ~ has_mode_qualifier (seg src i e) ->
        (forall p e0, statement src p e0 -> ~ (p < i < e0)) ->
        In (i, e) spans) /\
    ((forall q e' p e,
         statement src q e' -> ~ has_mode_qualifier (seg src q e') ->
         statement src p e -> ~ (p < q < e)) ->
     forall i e, In (i, e) spans <->
                 statement src i e /\ ~ has_mode_qualifier (seg src i e)).
Proof.
  intros src.
  exists (filter (reports src) (finditer STMT_RE src)).
  destruct (reported_spans src) as (Hord & Hincl & Hall).
  assert (Hin : forall i e,
             In (i, e) (filter (reports src) (finditer STMT_RE src)) <->
             In (i, e) (finditer STMT_RE src) /\
             ~ has_mode_qualifier (seg src i e)).
  { intros i e. rewrite filter_In, reports_iff. reflexivity. }
  assert (Hone : forall i e,
             statement src i e -> ~ has_mode_qualifier (seg src i e) ->
             (forall p e0, statement src p e0 -> ~ (p < i < e0)) ->
             In (i, e) (filter (reports src) (finditer STMT_RE src))).
  { intros i e Hst Hq Hno. apply Hin. split; [|exact Hq].
    destruct (finditer_complete _ _ _ Hst) as [Hm|(p & e0 & Hm & Hb)];
      [exact Hm|].
    exfalso. apply (Hno p e0); [|exact Hb].
    pose proof (finditer_statements src) as F.
    rewrite Forall_forall in F. apply (F (p, e0) Hm). }
  split; [exact Hord|]. split; [eapply in_order_NoDup; exact Hord|].
  split; [exact Hin|].
  split; [eapply Forall_impl; [|exact Hall]; simpl; tauto|].
  split; [rewrite findings_run; apply length_map|].
  split; [|split; [exact Hone|]].
  - rewrite findings_run, map_map. apply map_ext. intros m. simpl.
    apply line_of_offset_nat.
  - intros Hno i e. split.
    + intros Hm. rewrite Forall_forall in Hall. apply (Hall (i, e) Hm).
    + intros [Hst Hq]. apply (Hone i e Hst Hq).
      intros p e0 Hp. exact (Hno i e p e0 Hst Hq Hp).
Qed.

(** C2.  Every finding is the finding of a SPLIT statement in whose text
    the qualifier (the word IN, whitespace, CHARACTER or BYTE, whitespace,
    the word MODE, up to case, between word boundaries) occurs nowhere, and
    no statement with a finding holds a statement with the qualifier; so a
    statement that holds the qualifier yields no finding, and a text whose
    every SPLIT statement holds it yields none at all. *)
Theorem qualified_statements_yield_no_finding (u : Unit.t) :
  let src := source_text u in
  (exists spans,
      Forall (fun m => statement src (fst m) (snd m) /\
                       ~ has_mode_qualifier (seg src (fst m) (snd m))) spans /\
      incl spans (finditer STMT_RE src) /\
      findings u = map (finding_of u src) spans /\
      (forall q e',
          statement src q e' -> has_mode_qualifier (seg src q e') ->
          forall p e, In (p, e) spans -> ~ (p <= q /\ e' <= e))) /\
  ((forall i e, statement src i e -> has_mode_qualifier (seg src i e)) ->
   findings u = []).
Proof.
  intros src. destruct (reported_spans src) as (Hord & Hincl & Hall).
  split.
  - exists (filter (reports src) (finditer STMT_RE src)).
    split; [exact Hall|]. split; [exact Hincl|].
    split; [apply findings_run|].
    intros q e' Hq Hmode p e Hin [Hpq Hee].
    rewrite Forall_forall in Hall. destruct (Hall (p, e) Hin) as [Hp Hn].
    simpl in Hp, Hn. apply Hn.
    exact (qualifier_in_containing_statement src p e q e' Hp Hq Hpq Hee Hmode).
  - intros Hq. rewrite findings_run. fold src.
    destruct (filter (reports src) (finditer STMT_RE src)) as [|[i e] rest];
      [reflexivity|].
    exfalso. inversion Hall as [|? ? [Hst Hn] _]; subst. simpl in *.
    apply Hn, Hq, Hst.
Qed.

(** C3.  The matches of [STMT_RE] in a text are SPLIT statements: the
    keyword, up to case and between word boundaries, then the characters up
    to the next full stop, whatever they are, and that full stop.  They
    come in source order and do not overlap.  A statement of the text is
    one of them unless it starts inside one that starts before it, so a
    statement that starts where a match ends is matched.  No match starts
    at an offset with no full stop after it, and the findings are findings
    of matches. *)
Theorem statement_extraction (u : Unit.t) :
  let src := source_text u in
  let spans := finditer STMT_RE src in
  Forall (fun m => statement src (fst m) (snd m)) spans /\
  in_order 0 spans /\
  (forall i e, statement src i e ->
     In (i, e) spans \/ exists p e', In (p, e') spans /\ p < i < e') /\
  (forall i, (forall p, i <= p -> nth_error src p <> Some DOT) ->
     forall e, ~ In (i, e) spans) /\
  (exists kept, incl kept spans /\ findings u = map (finding_of u src) kept).
Proof.
  intros src spans.
  split; [apply finditer_statements|].
  split; [apply finditer_in_order|].
  split; [intros i e; apply finditer_complete|].
  split.
  - intros i Hnone e Hin.
    pose proof (finditer_statements src) as F. rewrite Forall_forall in F.
    apply F in Hin. simpl in Hin. apply statement_indices in Hin.
    destruct Hin as (Hr & Hd & _). apply (Hnone (e - 1)); [lia|exact Hd].
  - exists (filter (reports src) spans). split; [|apply findings_run].
    intros m Hm. apply filter_In in Hm. tauto.
Qed.

(** C4.  The findings of a scan answer, one for one and in source order,
    to the statements that the scan reports, the matches of [STMT_RE] that
    hold no mode qualifier; that list is the only one in source order with
    these members.  The snippet of a finding is the text of the unit from
    sixty characters before the start of its own statement, or from the
    start of the text when that is nearer, to sixty characters after its
    end, or to the end of the text, with every newline character replaced
    by a backslash and the letter n: the escaped context before, of at most
    sixty characters, the escaped statement, and the escaped context after,
    of at most sixty characters.  No newline character is left in it.  The
    line of the finding is the line of the same statement. *)
Theorem snippet_is_escaped_excerpt (u : Unit.t) :
  let src := source_text u in
  let reported := fun spans : list (nat * nat) =>
    in_order 0 spans /\
    forall i e, In (i, e) spans <->
                In (i, e) (finditer STMT_RE src) /\
                ~ has_mode_qualifier (seg src i e) in
  let escaped := fun t : str =>
    flat_map (fun c => if (c =? NL)%N then [BACKSLASH; LOWER_N] else [c]) t in
  exists spans,
    reported spans /\
    (forall spans', reported spans' -> spans' = spans) /\
    Forall (fun m => statement src (fst m) (snd m)) spans /\
    length (findings u) = length spans /\
    Forall2 (fun f m =>
               let before := seg src (fst m - 60) (fst m) in
               let after := seg src (snd m) (Nat.min (length src) (snd m + 60)) in
               Finding.snippet f =
                 escaped (seg src (fst m - 60)
                              (Nat.min (length src) (snd m + 60))) /\
               Finding.snippet f =
                 escaped before ++ escaped (seg src (fst m) (snd m))
                 ++ escaped after /\
               length before <= 60 /\ length after <= 60 /\
               ~ In NL (Finding.snippet f) /\
               Finding.line f = (count_char NL (firstn (fst m) src) + 1)%Z)
            (findings u) spans.
Proof.
  intros src reported escaped.
  destruct (reported_spans src) as (Hord & Hincl & Hall).
  assert (Hrep : reported (filter (reports src) (finditer STMT_RE src))).
  { split; [exact Hord|]. intros i e. rewrite filter_In, reports_iff.
    reflexivity. }
  exists (filter (reports src) (finditer STMT_RE src)).
  split; [exact Hrep|]. split; [|split; [|split]].
  - intros spans' [Hord' Hin']. destruct Hrep as [_ Hin].
    apply (in_order_unique spans' _ 0 0 Hord' Hord).
    intros [i e]. rewrite Hin', Hin. reflexivity.
  - eapply Forall_impl; [|exact Hall]. simpl. tauto.
  - rewrite findings_run. apply length_map.
  - rewrite findings_run. fold src.
    assert (Hst : Forall (fun m => statement src (fst m) (snd m))
                         (filter (reports src) (finditer STMT_RE src))).
    { eapply Forall_impl; [|exact Hall]. simpl. tauto. }
    clear Hord Hincl Hall Hrep.
    induction (filter (reports src) (finditer STMT_RE src)) as [|m rest IH];
      simpl; constructor.
    + inversion Hst as [|? ? Hm _]; subst.
      apply statement_indices in Hm. destruct Hm as (Hr & _).
      cbn [Finding.snippet Finding.line finding_of].
      rewrite snippet_at_nat.
      assert (W : seg src (fst m - 60) (Nat.min (length src) (snd m + 60))
                  = seg src (fst m - 60) (fst m) ++ seg src (fst m) (snd m)
                    ++ seg src (snd m) (Nat.min (length src) (snd m + 60))).
      { rewrite (seg_app src (fst m - 60) (fst m)) by lia.
        rewrite (seg_app src (fst m) (snd m)) by lia. reflexivity. }
      split; [reflexivity|]. split.
      { change (replace (seg src (fst m - 60)
                             (Nat.min (length src) (snd m + 60)))
                        NL [BACKSLASH; LOWER_N])
          with (escaped (seg src (fst m - 60)
                             (Nat.min (length src) (snd m + 60)))).
        rewrite W. unfold escaped. rewrite !flat_map_app. reflexivity. }
      split; [rewrite seg_length; lia|].
      split; [rewrite seg_length; lia|].
      split; [apply replace_no_newline|].
      apply line_of_offset_nat.
    + apply IH. inversion Hst; assumption.
Qed.

(** C5.  Every finding carries the issue kind [SplitWithoutMode], the
    severity [warning], the fixed message and the fixed suggestion with
    its two forms, and the program name, include name, unit kind, unit
    name, start line and end line of the unit that was scanned. *)
Theorem findings_fixed_fields (u : Unit.t) :
  Forall (fun f =>
            Finding.issue_type f = lit "SplitWithoutMode" /\
            Finding.severity f = lit "warning" /\
            Finding.message f =
              lit "SPLIT without MODE. Specify IN CHARACTER MODE (text) or IN BYTE MODE (binary)." /\
            Finding.suggestion f =
              lit "SPLIT <text> AT <sep> INTO <f1> <f2> ... IN CHARACTER MODE."
              ++ [NL] ++ lit "* or *" ++ [NL]
              ++ lit "SPLIT <xbin> AT <xsep> INTO <x1> <x2> ... IN BYTE MODE. Specify IN CHARACTER MODE (text) or IN BYTE MODE (binary)." /\
            Finding.pgm_name f = Unit.pgm_name u /\
            Finding.inc_name f = Unit.inc_name u /\
            Finding.type f = Unit.type u /\
            Finding.name f = Unit.name u /\
            Finding.start_line f = Unit.start_line u /\
            Finding.end_line f = Unit.end_line u)
         (findings u).
Proof.
  rewrite findings_run. apply Forall_forall. intros f Hf.
  apply in_map_iff in Hf. destruct Hf as (m & <- & _).
  repeat split.
Qed.

(** C6.  The endpoint scans the units in input order and returns, in that
    order, the results of exactly those units whose findings list is not
    empty; a result is the unit's own fields with its findings. *)
Theorem scan_rule_keeps_units_with_findings (units : list Unit.t) :
  fst (scan_rule units) =
    filter (fun r => match UnitResult.rule116_findings r with
                     | [] => false
                     | _ :: _ => true
                     end)
           (map (fun u => fst (scan_unit u)) units) /\
  Forall (fun u =>
            let r := fst (scan_unit u) in
            UnitResult.pgm_name r = Unit.pgm_name u /\
            UnitResult.inc_name r = Unit.inc_name u /\
            UnitResult.type r = Unit.type u /\
            UnitResult.name r = Unit.name u /\
            UnitResult.start_line r = Unit.start_line u /\
            UnitResult.end_line r = Unit.end_line u /\
            UnitResult.code r = Unit.code u /\
            UnitResult.rule116_findings r = findings u)
         units.
Proof.
  split.
  - unfold scan_rule. rewrite scan_rule_loop_run. reflexivity.
  - apply Forall_forall. intros u _. rewrite scan_unit_run.
    simpl. repeat split. rewrite findings_run. reflexivity.
Qed.

(** C7.  [scan_unit] is a total function: it returns a result for every
    unit.  Its findings list is empty for the empty text, for a text with
    no full stop, and for a text with no SPLIT statement. *)
Theorem scan_unit_degenerate_text (u : Unit.t) :
  (exists r, scan_unit u = (r, u) /\ UnitResult.rule116_findings r = findings u) /\
  (source_text u = [] -> findings u = []) /\
  (~ In DOT (source_text u) -> findings u = []) /\
  ((forall i e, ~ statement (source_text u) i e) -> findings u = []).
Proof.
  assert (Hnone : (forall i e, ~ statement (source_text u) i e) ->
                  findings u = []).
  { intros H. rewrite findings_run.
    pose proof (finditer_statements (source_text u)) as F.
    destruct (finditer STMT_RE (source_text u)) as [|[i e] rest];
      [reflexivity|].
    exfalso. inversion F; subst. apply (H i e). assumption. }
  split; [|split; [apply findings_of_empty|split; [|exact Hnone]]].
  - eexists. split; [apply scan_unit_run|].
    rewrite findings_run. reflexivity.
  - intros Hdot. apply Hnone. intros i e Hst.
    apply statement_indices in Hst. destruct Hst as (_ & Hd & _).
    apply Hdot. eapply nth_error_In. exact Hd.
Qed.

(** C8.  A scan leaves the unit it was handed as it was, a second scan of
    that unit returns the same result as the first, and the endpoint
    leaves all its units as they were. *)
Theorem scan_unit_pure (u : Unit.t) :
  snd (scan_unit u) = u /\
  fst (scan_unit (snd (scan_unit u))) = fst (scan_unit u) /\
  forall units, snd (scan_rule units) = units.
Proof.
  split; [|split].
  - rewrite scan_unit_run. reflexivity.
  - replace (snd (scan_unit u)) with u
      by (rewrite scan_unit_run; reflexivity).
    reflexivity.
  - intros units. unfold scan_rule. rewrite scan_rule_loop_run. reflexivity.
Qed.

(** C9.  A unit whose [code] is [None] is scanned as the empty string: the
    scan returns, its findings list is empty, and it is the list of the same
    unit with [code] set to the empty string. *)
Theorem scan_unit_code_none (u : Unit.t) :
  Unit.code u = None ->
  findings u = [] /\
  findings u =
    findings (Unit.mk (Unit.pgm_name u) (Unit.inc_name u) (Unit.type u)
                      (Unit.name u) (Unit.start_line u) (Unit.end_line u)
                      (Some [])).
Proof.
  intros H.
  assert (E : source_text u = []) by (unfold source_text; rewrite H; reflexivity).
  split.
  - apply findings_of_empty. exact E.
  - rewrite !findings_of_empty; auto.
Qed.

(** C10.  The scan returns at most as many findings as the text has full
    stops. *)
Theorem findings_bounded_by_full_stops (u : Unit.t) :
  (Z.of_nat (length (findings u)) <= count_char DOT (source_text u))%Z.
Proof.
  rewrite findings_run, length_map.
  pose proof (filter_length_le (reports (source_text u))
                (finditer STMT_RE (source_text u))) as Hle.
  pose proof (ordered_statements_bound (source_text u) _ 0
                (finditer_in_order _) (finditer_statements _)) as Hb.
  simpl in Hb. lia.
Qed.
End Properties.

(** ** The scan depends on the database only at the characters of the text *)

Section Agreement.
Variables U1 U2 : UnicodeDB.

Lemma agree_on_In (s : str) (c : char) :
  agree_on U1 U2 s -> In c s ->
  @Py_UNICODE_ISALNUM U1 c = @Py_UNICODE_ISALNUM U2 c /\
  @Py_UNICODE_ISSPACE U1 c = @Py_UNICODE_ISSPACE U2 c /\
  @Py_UNICODE_TOLOWER U1 c = @Py_UNICODE_TOLOWER U2 c.
Proof. intros H Hin. unfold agree_on in H. rewrite Forall_forall in H. auto. Qed.

Lemma agree_on_skipn (s : str) (n : nat) :
  agree_on U1 U2 s -> agree_on U1 U2 (skipn n s).
Proof.
  intros H. apply Forall_forall. intros c Hc.
  apply (agree_on_In s); [exact H|]. rewrite <- (firstn_skipn n s).
  apply in_or_app. right. exact Hc.
Qed.

Lemma agree_on_firstn (s : str) (n : nat) :
  agree_on U1 U2 s -> agree_on U1 U2 (firstn n s).
Proof.
  intros H. apply Forall_forall. intros c Hc.
  apply (agree_on_In s); [exact H|]. rewrite <- (firstn_skipn n s).
  apply in_or_app. left. exact Hc.
Qed.

Lemma agree_on_slice (s : str) (a b : Z) :
  agree_on U1 U2 s -> agree_on U1 U2 (slice s a b).
Proof. intros H. unfold slice. apply agree_on_firstn, agree_on_skipn, H. Qed.

Lemma atom_match_agree (s : str) (a : atom) (c : char) :
  agree_on U1 U2 s -> In c s -> @atom_match U1 a c = @atom_match U2 a c.
Proof.
  intros H Hin. destruct (agree_on_In s c H Hin) as (_ & Hs & Hl).
  destruct a as [p|p|]; simpl; auto.
  unfold lit_match. rewrite Hl. reflexivity.
Qed.

Lemma at_boundary_agree (s : str) (i : nat) :
  agree_on U1 U2 s -> @at_boundary U1 s i = @at_boundary U2 s i.
Proof.
  intros H.
  assert (W : forall j, match nth_error s j with
                        | Some c => @is_word U1 c
                        | None => false
                        end =
                        match nth_error s j with
                        | Some c => @is_word U2 c
                        | None => false
                        end).
  { intros j. destruct (nth_error s j) as [c|] eqn:Hc; [|reflexivity].
    apply nth_error_In in Hc.
    destruct (agree_on_In s c H Hc) as (Ha & _). unfold is_word.
    rewrite Ha. reflexivity. }
  unfold at_boundary, word_here, word_before. rewrite W.
  destruct i as [|j]; [reflexivity|]. rewrite (W j). reflexivity.
Qed.

Lemma repeat_greedy_agree (a : atom) (rest : str) :
  agree_on U1 U2 rest ->
  forall i k1 k2, (forall j, k1 j = k2 j) ->
    @repeat_greedy U1 a rest i k1 = @repeat_greedy U2 a rest i k2.
Proof.
  induction rest as [|c rest IH]; intros H i k1 k2 Hk; simpl; [apply Hk|].
  rewrite (atom_match_agree (c :: rest) a c H) by (left; reflexivity).
  inversion H; subst.
  rewrite (IH ltac:(assumption) (S i) k1 k2 Hk), Hk. reflexivity.
Qed.

Lemma run_agree (s : str) (r : regex) :
  agree_on U1 U2 s ->
  forall i k1 k2, (forall j, k1 j = k2 j) ->
    @run U1 s r i k1 = @run U2 s r i k2.
Proof.
  intros H.
  induction r as [|a| |r1 IH1 r2 IH2|r1 IH1 r2 IH2|a|a]; intros i k1 k2 Hk;
    simpl.
  - apply Hk.
  - destruct (nth_error s i) as [c|] eqn:Hc; [|reflexivity].
    rewrite (atom_match_agree s a c H) by (eapply nth_error_In; eauto).
    rewrite Hk. reflexivity.
  - rewrite (at_boundary_agree s i H), Hk. reflexivity.
  - apply IH1. intros j. apply IH2. exact Hk.
  - rewrite (IH1 i k1 k2 Hk), (IH2 i k1 k2 Hk). reflexivity.
  - apply repeat_greedy_agree; [apply agree_on_skipn, H|exact Hk].
  - destruct (nth_error s i) as [c|] eqn:Hc; [|reflexivity].
    rewrite (atom_match_agree s a c H) by (eapply nth_error_In; eauto).
    destruct (@atom_match U2 a c); [|reflexivity].
    apply repeat_greedy_agree; [exact (agree_on_skipn s (S i) H)|exact Hk].
Qed.

Lemma match_at_agree (s : str) (r : regex) (i : nat) (must : bool) :
  agree_on U1 U2 s -> @match_at U1 s r i must = @match_at U2 s r i must.
Proof. intros H. unfold match_at. apply run_agree; auto. Qed.

Lemma search_from_agree (s : str) (r : regex) (n : nat) :
  agree_on U1 U2 s ->
  forall i must, @search_from U1 s r n i must = @search_from U2 s r n i must.
Proof.
  intros H. induction n as [|n IH]; intros i must; simpl; [reflexivity|].
  rewrite (match_at_agree s r i must H), IH. reflexivity.
Qed.

Lemma finditer_loop_agree (s : str) (r : regex) (fuel : nat) :
  agree_on U1 U2 s ->
  forall pos must,
    @finditer_loop U1 s r fuel pos must = @finditer_loop U2 s r fuel pos must.
Proof.
  intros H. induction fuel as [|fuel IH]; intros pos must; simpl; [reflexivity|].
  unfold search_pos. rewrite (search_from_agree s r _ H).
  destruct (@search_from U2 s r (S (length s) - pos) pos must) as [[i e]|];
    [|reflexivity].
  rewrite IH. reflexivity.
Qed.

Lemma reports_agree (src : str) (m : nat * nat) :
  agree_on U1 U2 src -> @reports U1 src m = @reports U2 src m.
Proof.
  intros H. unfold reports, search, search_pos.
  rewrite (search_from_agree _ MODE_RE _ (agree_on_slice src _ _ H)).
  reflexivity.
Qed.

(** Databases that agree on the characters of the unit's text give the
    same scan. *)
Lemma scan_unit_agree (u : Unit.t) :
  agree_on U1 U2 (source_text u) -> @scan_unit U1 u = @scan_unit U2 u.
Proof.
  intros H. rewrite !scan_unit_run. unfold finditer.
  rewrite (finditer_loop_agree _ STMT_RE _ H).
  rewrite (filter_ext _ _ (fun m => reports_agree (source_text u) m H)).
  reflexivity.
Qed.
End Agreement.

Lemma is_ascii_agree (U : UnicodeDB) (s : str) :
  ascii_faithful U -> is_ascii s = true -> agree_on U ascii_db s.
Proof.
  intros HU Hs. unfold is_ascii in Hs. rewrite forallb_forall in Hs.
  apply Forall_forall. intros c Hc. apply HU. apply N.ltb_lt. auto.
Qed.

(** On a unit whose text is ASCII, every database that is right on the
    ASCII range gives the scan of [ascii_db]. *)
Lemma scan_unit_ascii (U : UnicodeDB) (u : Unit.t) :
  ascii_faithful U -> is_ascii (source_text u) = true ->
  @scan_unit U u = @scan_unit ascii_db u.
Proof. intros HU Hs. apply scan_unit_agree, is_ascii_agree; assumption. Qed.

Lemma findings_ascii (U : UnicodeDB) (u : Unit.t) :
  ascii_faithful U -> is_ascii (source_text u) = true ->
  @findings U u = @findings ascii_db u.
Proof. intros HU Hs. unfold findings. rewrite scan_unit_ascii; auto. Qed.

Lemma scan_rule_ascii (U : UnicodeDB) (units : list Unit.t) :
  ascii_faithful U ->
  forallb (fun u => is_ascii (source_text u)) units = true ->
  @scan_rule U units = @scan_rule ascii_db units.
Proof.
  intros HU Hs. unfold scan_rule. generalize (@nil UnitResult.t) as acc.
  induction units as [|u units IH]; intros acc; simpl; [reflexivity|].
  simpl in Hs. apply andb_true_iff in Hs. destruct Hs as [Hu Hs].
  rewrite (scan_unit_ascii U u HU Hu).
  destruct (@scan_unit ascii_db u) as [res u'].
  rewrite (IH Hs). reflexivity.
Qed.

(** ** The properties on concrete units *)

Lemma one_finding_per_unqualified_statement_witness :
  (forall q e' p e,
      statement (source_text three_statements) q e' ->
      ~ has_mode_qualifier (seg (source_text three_statements) q e') ->
      statement (source_text three_statements) p e -> ~ (p < q < e)) /\
  map Finding.line (findings three_statements) = [2; 5]%Z /\
  exists spans,
    in_order 0 spans /\ NoDup spans /\
    (forall i e, In (i, e) spans <->
                 statement (source_text three_statements) i e /\
                 ~ has_mode_qualifier (seg (source_text three_statements) i e)) /\
    length (findings three_statements) = length spans.
Proof.
  assert (Hno : forall q e' p e,
      statement (source_text three_statements) q e' ->
      ~ has_mode_qualifier (seg (source_text three_statements) q e') ->
      statement (source_text three_statements) p e -> ~ (p < q < e)).
  { apply all_found_no_overlap. vm_compute. reflexivity. }
  split; [exact Hno|]. split; [vm_compute; reflexivity|].
  destruct (one_finding_per_unqualified_statement three_statements)
    as (spans & Hord & Hnd & _ & _ & Hlen & _ & _ & Hall).
  exists spans. split; [exact Hord|]. split; [exact Hnd|].
  split; [exact (Hall Hno)|exact Hlen].
Defined.

(** The statement on line 2 of [after_comment] is a SPLIT statement
    without a qualifier, and the scan has no finding for it: the match that
    starts at the keyword of the comment runs to the same full stop and
    holds the qualifier. *)
Lemma commented_keyword_hides_statement :
  statement (source_text after_comment) 32 57 /\
  ~ has_mode_qualifier (seg (source_text after_comment) 32 57) /\
  (count_char NL (firstn 32 (source_text after_comment)) + 1 = 2)%Z /\
  finditer STMT_RE (source_text after_comment) = [(2, 57)] /\
  findings after_comment = [] /\
  ~ (forall i e,
        statement (source_text after_comment) i e ->
        ~ has_mode_qualifier (seg (source_text after_comment) i e) ->
        exists f, In f (findings after_comment) /\
                  Finding.line f =
                    (count_char NL (firstn i (source_text after_comment)) + 1)%Z).
Proof.
  assert (Hst : statement (source_text after_comment) 32 57).
  { apply STMT_match_at; [apply Nat.leb_le|]; vm_compute; reflexivity. }
  assert (Hq : ~ has_mode_qualifier (seg (source_text after_comment) 32 57)).
  { apply has_mode_false_iff. vm_compute. reflexivity. }
  assert (Hf : findings after_comment = []) by (vm_compute; reflexivity).
  split; [exact Hst|]. split; [exact Hq|].
  split; [vm_compute; reflexivity|]. split; [vm_compute; reflexivity|].
  split; [exact Hf|].
  intros H. destruct (H 32 57 Hst Hq) as (f & Hin & _).
  rewrite Hf in Hin. exact Hin.
Qed.

Lemma qualified_statements_yield_no_finding_witness :
  (forall i e, statement (source_text compliant) i e ->
               has_mode_qualifier (seg (source_text compliant) i e)) /\
  findings compliant = [].
Proof.
  assert (H : forall i e, statement (source_text compliant) i e ->
                          has_mode_qualifier (seg (source_text compliant) i e)).
  { apply all_qualified_spec. vm_compute. reflexivity. }
  split; [exact H|].
  exact (proj2 (qualified_statements_yield_no_finding compliant) H).
Defined.

Lemma scan_unit_degenerate_text_witness :
  ~ In DOT (source_text unterminated) /\ findings unterminated = [].
Proof.
  assert (H : ~ In DOT (source_text unterminated)).
  { intros H. vm_compute in H.
    repeat (destruct H as [H|H]; [discriminate H|]). exact H. }
  split; [exact H|].
  exact (proj1 (proj2 (proj2 (scan_unit_degenerate_text unterminated))) H).
Defined.

Lemma scan_unit_code_none_witness :
  Unit.code without_code = None /\
  findings without_code = [] /\
  findings without_code =
    findings (Unit.mk (lit "ZPROG") (lit "ZINC") (lit "form") None None None
                      (Some [])).
Proof.
  split; [reflexivity|].
  exact (scan_unit_code_none without_code eq_refl).
Defined.

(** The end-to-end examples of the specification, for every database
    that is right on the ASCII range. *)
Example non_compliant_one_finding (U : UnicodeDB) :
  ascii_faithful U ->
  map (fun f => (Finding.issue_type f, Finding.line f))
      (@findings U non_compliant)
  = [(lit "SplitWithoutMode", 1%Z)].
Proof.
  intros HU. rewrite (findings_ascii U) by (exact HU || reflexivity).
  vm_compute. reflexivity.
Qed.

Example compliant_omitted (U : UnicodeDB) :
  ascii_faithful U ->
  @findings U compliant = [] /\ fst (@scan_rule U [compliant]) = [].
Proof.
  intros HU. rewrite (findings_ascii U) by (exact HU || reflexivity).
  rewrite (scan_rule_ascii U) by (exact HU || reflexivity).
  split; vm_compute; reflexivity.
Qed.

Example batch_of_two (U : UnicodeDB) :
  ascii_faithful U ->
  fst (@scan_rule U [compliant; non_compliant])
  = [fst (@scan_unit U non_compliant)] /\
  length (@findings U non_compliant) = 1.
Proof.
  intros HU. rewrite (findings_ascii U) by (exact HU || reflexivity).
  rewrite (scan_rule_ascii U) by (exact HU || reflexivity).
  rewrite (scan_unit_ascii U) by (exact HU || reflexivity).
  split; vm_compute; reflexivity.
Qed.

Example statement_across_lines :
  finditer STMT_RE (source_text three_statements)
  = [(21, 46); (47, 90); (94, 123)].
Proof. vm_compute. reflexivity. Qed.

(** The snippets of the two findings of [three_statements], each around
    its own statement. *)
Example three_statements_snippets :
  map Finding.snippet (findings three_statements)
  = [lit "DATA lv TYPE string.\nSPLIT lv AT '/' INTO a b.\nSPLIT lv AT '/' INTO a b IN CHARACTER MODE.\n\n  split lv\n   ";
     lit "/' INTO a b.\nSPLIT lv AT '/' INTO a b IN CHARACTER MODE.\n\n  split lv\n    at '-' into c d."].
Proof. vm_compute. reflexivity. Qed.

(** ** Further properties of the helpers and of the scan *)

Section Lines.
Context {U : UnicodeDB}.

Lemma slice_from_start (text : str) (off : Z) :
  slice text 0 off = firstn (Z.to_nat (clamp_index (len text) off)) text.
Proof.
  unfold slice. assert (E : clamp_index (len text) 0 = 0%Z).
  { unfold clamp_index, len. simpl. lia. }
  rewrite E. simpl skipn. f_equal. lia.
Qed.

Lemma count_char_firstn_mono (c : char) (t : str) (n m : nat) :
  n <= m -> (count_char c (firstn n t) <= count_char c (firstn m t))%Z.
Proof.
  intros H. replace m with (n + (m - n)) by lia.
  rewrite firstn_plus, count_char_app.
  pose proof (count_char_nonneg c (firstn (m - n) (skipn n t))). lia.
Qed.

Lemma count_char_firstn_le (c : char) (t : str) (n : nat) :
  (count_char c (firstn n t) <= count_char c t)%Z.
Proof.
  rewrite <- (firstn_skipn n t) at 2. rewrite count_char_app.
  pose proof (count_char_nonneg c (skipn n t)). lia.
Qed.

(** X1.  Whatever the offset, negative or past the end, the line that
    [line_of_offset] returns lies between 1 and the number of newline
    characters of the text plus one; it is 1 at offset 0, it is the last
    line from the end of the text on, and it does not decrease when a
    non-negative offset grows. *)
Theorem line_of_offset_range (text : str) (a b : Z) :
  (1 <= line_of_offset text a <= count_char NL text + 1)%Z /\
  line_of_offset text 0 = 1%Z /\
  ((len text <= a)%Z -> line_of_offset text a = (count_char NL text + 1)%Z) /\
  ((0 <= a <= b)%Z -> (line_of_offset text a <= line_of_offset text b)%Z).
Proof.
  unfold line_of_offset, count. rewrite !slice_from_start.
  split; [|split; [|split]].
  - pose proof (count_char_nonneg NL
                  (firstn (Z.to_nat (clamp_index (len text) a)) text)).
    pose proof (count_char_firstn_le NL text
                  (Z.to_nat (clamp_index (len text) a))). lia.
  - replace (Z.to_nat (clamp_index (len text) 0)) with 0; [reflexivity|].
    unfold clamp_index, len. simpl. lia.
  - intros H. rewrite firstn_all2; [reflexivity|].
    unfold clamp_index, len in *.
    destruct (a <? 0)%Z eqn:E; [apply Z.ltb_lt in E; lia|]. lia.
  - intros H.
    pose proof (count_char_firstn_mono NL text
                  (Z.to_nat (clamp_index (len text) a))
                  (Z.to_nat (clamp_index (len text) b))) as M.
    assert (Z.to_nat (clamp_index (len text) a)
            <= Z.to_nat (clamp_index (len text) b)).
    { unfold clamp_index, len.
      destruct (a <? 0)%Z eqn:Ea; [apply Z.ltb_lt in Ea; lia|].
      destruct (b <? 0)%Z eqn:Eb; [apply Z.ltb_lt in Eb; lia|]. lia. }
    specialize (M ltac:(assumption)). lia.
Qed.

Lemma lines_sorted_from (src : str) (spans : list (nat * nat)) :
  forall pos, in_order pos spans ->
    StronglySorted Z.le
      (map (fun m => (count_char NL (firstn (fst m) src) + 1)%Z) spans).
Proof.
  induction spans as [|[p e] rest IH]; intros pos H; simpl; constructor.
  - simpl in H. destruct H as (_ & _ & Hrest). eapply IH; eauto.
  - simpl in H. destruct H as (_ & He & Hrest).
    apply Forall_forall. intros l Hl. apply in_map_iff in Hl.
    destruct Hl as ([q e'] & <- & Hin). simpl.
    pose proof (in_order_lower _ _ _ _ Hrest Hin).
    pose proof (count_char_firstn_mono NL src p q). lia.
Qed.

(** X2.  The lines of the findings of a scan never decrease along the
    list, and each lies between 1 and the number of newline characters of
    the text plus one. *)
Theorem findings_lines_sorted (u : Unit.t) :
  StronglySorted Z.le (map Finding.line (findings u)) /\
  Forall (fun l => (1 <= l <= count_char NL (source_text u) + 1)%Z)
         (map Finding.line (findings u)).
Proof.
  rewrite findings_run, map_map. split.
  - erewrite map_ext; [|intros m; simpl; apply line_of_offset_nat].
    eapply lines_sorted_from. apply in_order_filter, finditer_in_order.
  - apply Forall_forall. intros l Hl. apply in_map_iff in Hl.
    destruct Hl as (m & <- & _). simpl. rewrite line_of_offset_nat.
    pose proof (count_char_nonneg NL (firstn (fst m) (source_text u))).
    pose proof (count_char_firstn_le NL (source_text u) (fst m)). lia.
Qed.

Lemma ordered_statements_length (s : str) (spans : list (nat * nat)) :
  forall pos,
    in_order pos spans ->
    Forall (fun m => statement s (fst m) (snd m)) spans ->
    pos + 6 * length spans <= Nat.max pos (length s).
Proof.
  induction spans as [|[p e] rest IH]; intros pos Hord Hst; simpl length.
  - lia.
  - simpl in Hord. destruct Hord as (Hp & He & Hrest).
    inversion Hst as [|? ? Hm Hst']; subst. simpl in Hm.
    apply statement_indices in Hm. destruct Hm as (Hr & _).
    specialize (IH e Hrest Hst'). lia.
Qed.

(** X3.  A statement takes at least six characters, the keyword and the
    full stop, and the statements that are scanned do not overlap: six
    times the number of findings is at most the length of the text. *)
Theorem six_characters_per_finding (u : Unit.t) :
  6 * length (findings u) <= length (source_text u).
Proof.
  rewrite findings_run, length_map.
  pose proof (filter_length_le (reports (source_text u))
                (finditer STMT_RE (source_text u))) as Hle.
  pose proof (ordered_statements_length (source_text u) _ 0
                (finditer_in_order _) (finditer_statements _)) as Hb.
  simpl in Hb. lia.
Qed.
End Lines.

Section Snippets.
Context {U : UnicodeDB}.

Lemma replace_app (t1 t2 : str) (c : char) (by_ : str) :
  replace (t1 ++ t2) c by_ = replace t1 c by_ ++ replace t2 c by_.
Proof. unfold replace. apply flat_map_app. Qed.

Lemma replace_newline_length (t : str) :
  Z.of_nat (length (replace t NL [BACKSLASH; LOWER_N]))
  = (Z.of_nat (length t) + count_char NL t)%Z.
Proof.
  unfold replace, count_char. induction t as [|x t IH]; [reflexivity|].
  cbn [flat_map filter]. rewrite length_app, (N.eqb_sym x NL).
  destruct (N.eqb NL x); cbn [length] in *; lia.
Qed.

(** X4.  For a span inside the text, the snippet is the escaped context
    before the span, of at most sixty characters, then the escaped text of
    the whole span, then the escaped context after it, of at most sixty
    characters; its length is the length of that window plus the number of
    newline characters in the window. *)
Theorem snippet_at_parts (text : str) (i e : nat) :
  i <= e <= length text ->
  let before := seg text (i - 60) i in
  let after := seg text e (Nat.min (length text) (e + 60)) in
  snippet_at text (Z.of_nat i) (Z.of_nat e) =
    replace before NL [BACKSLASH; LOWER_N]
    ++ replace (seg text i e) NL [BACKSLASH; LOWER_N]
    ++ replace after NL [BACKSLASH; LOWER_N] /\
  length before <= 60 /\ length after <= 60 /\
  Z.of_nat (length (snippet_at text (Z.of_nat i) (Z.of_nat e))) =
    (Z.of_nat (length (before ++ seg text i e ++ after))
     + count_char NL (before ++ seg text i e ++ after))%Z.
Proof.
  intros H before after.
  assert (W : seg text (i - 60) (Nat.min (length text) (e + 60))
              = before ++ seg text i e ++ after).
  { unfold before, after.
    rewrite (seg_app text (i - 60) i) by lia.
    rewrite (seg_app text i e) by lia. reflexivity. }
  rewrite snippet_at_nat, W.
  split; [rewrite !replace_app; reflexivity|].
  split; [unfold before; rewrite seg_length; lia|].
  split; [unfold after; rewrite seg_length; lia|].
  apply replace_newline_length.
Qed.

(** X5.  [MODE_RE.search(stmt)] finds a match exactly when the text holds,
    somewhere, the word IN, a run of whitespace, CHARACTER or BYTE, a run
    of whitespace and the word MODE, up to case, with a word boundary
    before IN and after MODE. *)
Theorem mode_search_decides_qualifier (stmt : str) :
  is_some (search MODE_RE stmt) = true <->
  exists i j kin sp1 alt sp2 kmode,
    seg stmt i j = kin ++ sp1 ++ alt ++ sp2 ++ kmode /\ j <= length stmt /\
    ci_eq "IN" kin /\ blank sp1 /\
    (ci_eq "CHARACTER" alt \/ ci_eq "BYTE" alt) /\
    blank sp2 /\ ci_eq "MODE" kmode /\
    at_boundary stmt i = true /\ at_boundary stmt j = true.
Proof. rewrite has_mode_iff. reflexivity. Qed.
End Snippets.

Section Batches.
Context {U : UnicodeDB}.

Lemma scan_rule_results (units : list Unit.t) :
  fst (scan_rule units) =
  filter (fun r => truthy (UnitResult.rule116_findings r))
         (map (fun u => fst (scan_unit u)) units).
Proof. unfold scan_rule. rewrite scan_rule_loop_run. reflexivity. Qed.

(** X6.  The endpoint treats every unit on its own: the results of a
    batch made of two batches are the results of the first followed by the
    results of the second, a result is in the output exactly when it is
    the scan of a unit of the batch that has a finding, and the output is
    never longer than the batch. *)
Theorem scan_rule_app (a b : list Unit.t) :
  fst (scan_rule (a ++ b)) = fst (scan_rule a) ++ fst (scan_rule b) /\
  (forall r, In r (fst (scan_rule a)) <->
             exists u, In u a /\ r = fst (scan_unit u) /\ findings u <> []) /\
  length (fst (scan_rule a)) <= length a.
Proof.
  rewrite !scan_rule_results. split; [|split].
  - rewrite map_app, filter_app. reflexivity.
  - intros r. rewrite filter_In, in_map_iff. split.
    + intros [(u & <- & Hu) Ht]. exists u. split; [exact Hu|].
      split; [reflexivity|]. unfold findings.
      destruct (UnitResult.rule116_findings (fst (scan_unit u)));
        [discriminate|discriminate].
    + intros (u & Hu & -> & Hne). split; [exists u; auto|].
      unfold findings in Hne.
      destruct (UnitResult.rule116_findings (fst (scan_unit u)));
        [contradiction|reflexivity].
  - rewrite <- (length_map (fun u => fst (scan_unit u)) a).
    apply filter_length_le.
Qed.
End Batches.

(** ** The scan of a text from the statements of the text *)

Section Locality.
Context {U : UnicodeDB}.

Lemma Scan_unique (s : str) (r : regex) (pos : nat) (l1 l2 : list (nat * nat)) :
  Scan s r pos l1 -> Scan s r pos l2 -> l1 = l2.
Proof.
  intros H1. revert l2.
  induction H1 as [pos Hnone|pos p e spans Hp He Hq HS IH]; intros l2 H2.
  - inversion H2 as [|? p2 e2 spans2 Hp2 He2 Hq2 HS2]; subst; [reflexivity|].
    rewrite Hnone in He2 by lia. discriminate.
  - inversion H2 as [? Hnone2|? p2 e2 spans2 Hp2 He2 Hq2 HS2]; subst.
    + rewrite Hnone2 in He by lia. discriminate.
    + destruct (Nat.lt_trichotomy p p2) as [Hlt|[Heq|Hgt]].
      * rewrite Hq2 in He by lia. discriminate.
      * subst p2. rewrite He in He2. inversion He2; subst e2.
        f_equal. apply IH. exact HS2.
      * rewrite Hq in He2 by lia. discriminate.
Qed.

Lemma finditer_unique (s : str) (spans : list (nat * nat)) :
  Scan s STMT_RE 0 spans -> finditer STMT_RE s = spans.
Proof. intros H. eapply Scan_unique; [apply finditer_STMT_Scan|exact H]. Qed.

Lemma no_statement_no_match (s : str) (q : nat) :
  q <= length s -> (forall e, ~ statement s q e) ->
  match_at s STMT_RE q false = None.
Proof.
  intros Hq H. destruct (match_at s STMT_RE q false) as [e|] eqn:E;
    [|reflexivity].
  apply STMT_match_at in E; [|exact Hq]. exfalso. exact (H e E).
Qed.

Lemma no_match_no_statement (s : str) (q e : nat) :
  match_at s STMT_RE q false = None -> ~ statement s q e.
Proof.
  intros H Hst. pose proof (statement_start _ _ _ Hst).
  apply STMT_match_at in Hst; [|lia]. congruence.
Qed.

(** A scan can start earlier when no statement starts in between. *)
Lemma Scan_from_earlier (s : str) (pos pos' : nat) (spans : list (nat * nat)) :
  pos <= pos' ->
  (forall q e, pos <= q < pos' -> ~ statement s q e) ->
  Scan s STMT_RE pos' spans -> Scan s STMT_RE pos spans.
Proof.
  intros Hle Hno HS.
  assert (Hnone : forall q, pos <= q < pos' -> q <= length s ->
                            match_at s STMT_RE q false = None).
  { intros q Hq Hl. apply no_statement_no_match; [exact Hl|].
    intros e. apply Hno. exact Hq. }
  inversion HS as [? Hdone|? p e rest Hp He Hq HS']; subst.
  - apply Scan_done. intros q Hq.
    destruct (Nat.lt_ge_cases q pos'); [apply Hnone; lia|apply Hdone; lia].
  - apply Scan_more; auto; [lia|]. intros q Hq'.
    destruct (Nat.lt_ge_cases q pos'); [apply Hnone; lia|apply Hq; lia].
Qed.

(** Two texts with the same statements have the same scan. *)
Lemma Scan_same_statements (s t : str) :
  (forall q e, statement t q e <-> statement s q e) ->
  forall pos spans, Scan s STMT_RE pos spans -> Scan t STMT_RE pos spans.
Proof.
  intros Hsame pos spans HS.
  induction HS as [pos Hnone|pos p e spans Hp He Hq HS IH].
  - apply Scan_done. intros q Hq. apply no_statement_no_match; [lia|].
    intros e Hst. apply Hsame in Hst.
    pose proof (statement_start _ _ _ Hst).
    eapply no_match_no_statement; [apply Hnone|exact Hst]. lia.
  - assert (Hst : statement s p e) by (apply STMT_match_at; [lia|exact He]).
    pose proof Hst as Hst'. apply Hsame in Hst'.
    pose proof (statement_start _ _ _ Hst').
    apply Scan_more; auto; [lia|apply STMT_match_at; [lia|exact Hst']|].
    intros q Hq'. apply no_statement_no_match; [lia|].
    intros e' Hq''. apply Hsame in Hq''.
    eapply no_match_no_statement; [apply Hq|exact Hq'']. lia.
Qed.

Lemma seg_app_prefix (s t : str) (i e : nat) :
  e <= length s -> seg (s ++ t) i e = seg s i e.
Proof.
  intros H. unfold seg. rewrite skipn_app, firstn_app.
  rewrite length_skipn.
  replace (e - i - (length s - i)) with 0 by lia.
  simpl. apply app_nil_r.
Qed.

Lemma at_boundary_prefix (s t : str) (k : nat) :
  k < length s -> at_boundary (s ++ t) k = at_boundary s k.
Proof.
  intros H. unfold at_boundary, word_here, word_before.
  rewrite nth_error_app1 by lia.
  destruct k as [|k]; [reflexivity|].
  rewrite nth_error_app1 by lia. reflexivity.
Qed.

Lemma statement_in_prefix (s t : str) (i e : nat) :
  e <= length s -> (statement (s ++ t) i e <-> statement s i e).
Proof.
  intros He. split.
  - intros H. pose proof (statement_indices _ _ _ H) as (Hr & _).
    destruct H as (kw & body & Hseg & _ & Hkw & Hbody & Hb1 & Hb2).
    exists kw, body. rewrite seg_app_prefix in Hseg by exact He.
    rewrite !at_boundary_prefix in * by lia. auto 10.
  - intros H. pose proof (statement_indices _ _ _ H) as (Hr & _).
    destruct H as (kw & body & Hseg & _ & Hkw & Hbody & Hb1 & Hb2).
    exists kw, body. rewrite seg_app_prefix by exact He.
    rewrite !at_boundary_prefix by lia.
    rewrite length_app. repeat split; auto. lia.
Qed.

Lemma statement_app_tail (s tail : str) (i e : nat) :
  ~ In DOT tail -> (statement (s ++ tail) i e <-> statement s i e).
Proof.
  intros Hdot. split.
  - intros H.
    assert (He : e <= length s).
    { pose proof (statement_indices _ _ _ H) as (Hr & Hd & _).
      destruct (Nat.le_gt_cases e (length s)) as [|Hgt]; [assumption|].
      exfalso. rewrite nth_error_app2 in Hd by lia.
      apply Hdot. eapply nth_error_In. exact Hd. }
    exact (proj1 (statement_in_prefix s tail i e He) H).
  - intros H. pose proof (statement_indices _ _ _ H) as (Hr & _).
    assert (He : e <= length s) by lia.
    exact (proj2 (statement_in_prefix s tail i e He) H).
Qed.

Lemma reports_in_prefix (s t : str) (m : nat * nat) :
  snd m <= length s -> reports (s ++ t) m = reports s m.
Proof.
  intros H. unfold reports. rewrite !slice_seg, seg_app_prefix by exact H.
  reflexivity.
Qed.

Lemma line_in_prefix (s t : str) (i : nat) :
  i <= length s ->
  line_of_offset (s ++ t) (Z.of_nat i) = line_of_offset s (Z.of_nat i).
Proof.
  intros H. rewrite !line_of_offset_nat. rewrite firstn_app.
  replace (i - length s) with 0 by lia. simpl. rewrite app_nil_r.
  reflexivity.
Qed.

(** X7.  Text after the last full stop is not scanned: when [tail] holds
    no full stop, the text followed by [tail] has the matches of the text
    alone, and a unit with the longer text has as many findings, on the
    same lines. *)
Theorem trailing_text_ignored (u u' : Unit.t) (tail : str) :
  source_text u' = source_text u ++ tail -> ~ In DOT tail ->
  finditer STMT_RE (source_text u') = finditer STMT_RE (source_text u) /\
  length (findings u') = length (findings u) /\
  map Finding.line (findings u') = map Finding.line (findings u).
Proof.
  intros Htext Hdot.
  assert (E : finditer STMT_RE (source_text u')
              = finditer STMT_RE (source_text u)).
  { rewrite Htext. apply finditer_unique.
    apply (Scan_same_statements (source_text u)).
    - intros q e. apply statement_app_tail. exact Hdot.
    - apply finditer_STMT_Scan. }
  assert (Hin : forall m, In m (finditer STMT_RE (source_text u)) ->
                          snd m <= length (source_text u)).
  { intros m Hm. pose proof (finditer_statements (source_text u)) as F.
    rewrite Forall_forall in F. apply F in Hm.
    apply statement_indices in Hm. lia. }
  assert (L : map Finding.line (findings u') = map Finding.line (findings u)).
  { rewrite !findings_run, E, !map_map, Htext.
    rewrite (filter_ext_in _ (reports (source_text u))).
    - apply map_ext_in. intros m Hm. simpl. apply filter_In in Hm.
      destruct Hm as [Hm _]. apply line_in_prefix.
      pose proof (finditer_in_order (source_text u)) as O.
      specialize (Hin m Hm).
      pose proof (finditer_statements (source_text u)) as F.
      rewrite Forall_forall in F. apply F in Hm.
      apply statement_indices in Hm. lia.
    - intros m Hm. apply reports_in_prefix. auto. }
  split; [exact E|]. split; [|exact L].
  rewrite <- (length_map Finding.line (findings u')), L. apply length_map.
Qed.

Lemma one_statement_scan (u : Unit.t) :
  statement (source_text u) 0 (length (source_text u)) ->
  finditer STMT_RE (source_text u) = [(0, length (source_text u))] /\
  (has_mode_qualifier (source_text u) -> findings u = []) /\
  (~ has_mode_qualifier (source_text u) ->
   exists f, findings u = [f] /\ Finding.line f = 1%Z /\
             Finding.snippet f =
               replace (source_text u) NL [BACKSLASH; LOWER_N]).
Proof.
  intros Hst. set (src := source_text u) in *.
  assert (E : finditer STMT_RE src = [(0, length src)]).
  { apply finditer_unique. apply Scan_more.
    - lia.
    - apply STMT_match_at; [lia|exact Hst].
    - intros q Hq. lia.
    - apply Scan_done. intros q Hq. apply no_statement_no_match; [lia|].
      intros e H. apply statement_start in H. lia. }
  assert (R : reports src (0, length src) = true <-> ~ has_mode_qualifier src).
  { rewrite reports_iff, seg_whole. reflexivity. }
  split; [exact E|]. split.
  - intros Hq. rewrite findings_run. fold src. rewrite E. simpl.
    destruct (reports src (0, length src)) eqn:Er; [|reflexivity].
    exfalso. apply R; auto.
  - intros Hq. rewrite findings_run. fold src. rewrite E. simpl.
    apply R in Hq. rewrite Hq. eexists. split; [reflexivity|].
    cbn [Finding.line Finding.snippet fst snd finding_of].
    split; [apply (line_of_offset_nat src 0)|].
    rewrite snippet_at_nat. replace (0 - 60) with 0 by lia.
    replace (Nat.min (length src) (length src + 60)) with (length src) by lia.
    rewrite seg_whole. reflexivity.
Qed.

(** X8.  A text that is one SPLIT statement from its first character to
    its last has one match, the whole text.  The scan then has no finding
    when the text holds the qualifier, and otherwise one finding, on line
    1, whose snippet is the whole text with its newline characters
    escaped. *)
Theorem single_statement_text (u : Unit.t) :
  statement (source_text u) 0 (length (source_text u)) ->
  finditer STMT_RE (source_text u) = [(0, length (source_text u))] /\
  (has_mode_qualifier (source_text u) -> findings u = []) /\
  (~ has_mode_qualifier (source_text u) ->
   exists f, findings u = [f] /\ Finding.line f = 1%Z /\
             Finding.snippet f =
               replace (source_text u) NL [BACKSLASH; LOWER_N]).
Proof. exact (one_statement_scan u). Qed.
End Locality.

(** ** The remediation that the suggestion shows *)

Section Remediation.
Context {U : UnicodeDB}.
Hypothesis faithful : ascii_faithful U.

Lemma ci_eq_agree (w : string) (t : str) :
  agree_on U ascii_db t -> @ci_eq ascii_db w t -> @ci_eq U w t.
Proof.
  unfold ci_eq. generalize (lit w) as ps. intros ps Ha H.
  induction H as [|p c ps t Hc Ht IH]; constructor.
  - inversion Ha as [|? ? (_ & _ & Hl) _]; subst.
    unfold lit_match in *. rewrite Hl. exact Hc.
  - apply IH. inversion Ha; assumption.
Qed.

Lemma ci_eq_ascii (w : string) (t : str) :
  is_ascii t = true -> @ci_eq ascii_db w t -> @ci_eq U w t.
Proof.
  intros Ht. apply ci_eq_agree. apply is_ascii_agree; assumption.
Qed.

Lemma at_boundary_ascii (a rest : str) (k : nat) :
  is_ascii a = true -> k < length a ->
  @at_boundary U (a ++ rest) k = @at_boundary ascii_db a k.
Proof.
  intros Ha Hk. rewrite at_boundary_prefix by exact Hk.
  apply at_boundary_agree. apply is_ascii_agree; assumption.
Qed.

Lemma blank_space : @blank U [32%N].
Proof.
  split; [discriminate|]. constructor; [|constructor].
  destruct (faithful 32%N) as (_ & Hs & _); [reflexivity|].
  rewrite Hs. reflexivity.
Qed.

(** A qualifier that does not start a text is a qualifier of every text
    that ends with it. *)
Lemma qualifier_shift (pre t : str) (i j : nat) :
  0 < i -> mode_qualifier_at t i j ->
  mode_qualifier_at (pre ++ t) (i + length pre) (j + length pre).
Proof.
  intros Hi (kin & sp1 & alt & sp2 & kmode & Hseg & Hj & Hin & Hsp1
             & Halt & Hsp2 & Hmode & Hb1 & Hb2).
  assert (Hij : i <= j).
  { destruct (Nat.le_gt_cases i j) as [|Hgt]; [assumption|].
    unfold seg in Hseg. replace (j - i) with 0 in Hseg by lia.
    apply (f_equal (@length _)) in Hseg. rewrite !length_app in Hseg.
    apply ci_eq_length in Hin. simpl in Hin, Hseg. lia. }
  exists kin, sp1, alt, sp2, kmode.
  rewrite seg_after_prefix, length_app.
  rewrite !at_boundary_after_prefix by lia.
  repeat (split; [assumption|]). split; [lia|].
  repeat (split; [assumption|]). assumption.
Qed.

Lemma qualifier_character :
  mode_qualifier_at (lit " IN CHARACTER MODE.") 1 18.
Proof.
  exists (lit "IN"), [32%N], (lit "CHARACTER"), [32%N], (lit "MODE").
  split; [reflexivity|]. split; [simpl; lia|].
  split; [apply ci_eq_ascii; [reflexivity|repeat constructor]|].
  split; [apply blank_space|].
  split; [left; apply ci_eq_ascii; [reflexivity|repeat constructor]|].
  split; [apply blank_space|].
  split; [apply ci_eq_ascii; [reflexivity|repeat constructor]|].
  rewrite <- (app_nil_r (lit " IN CHARACTER MODE.")).
  rewrite !at_boundary_ascii by (reflexivity || (simpl; lia)).
  split; reflexivity.
Qed.

Lemma qualifier_byte :
  mode_qualifier_at (lit " IN BYTE MODE.") 1 13.
Proof.
  exists (lit "IN"), [32%N], (lit "BYTE"), [32%N], (lit "MODE").
  split; [reflexivity|]. split; [simpl; lia|].
  split; [apply ci_eq_ascii; [reflexivity|repeat constructor]|].
  split; [apply blank_space|].
  split; [right; apply ci_eq_ascii; [reflexivity|repeat constructor]|].
  split; [apply blank_space|].
  split; [apply ci_eq_ascii; [reflexivity|repeat constructor]|].
  rewrite <- (app_nil_r (lit " IN BYTE MODE.")).
  rewrite !at_boundary_ascii by (reflexivity || (simpl; lia)).
  split; reflexivity.
Qed.

(** The keyword, a blank, any text without a full stop, and a full stop
    make one statement. *)
Lemma keyword_then_body (body : str) :
  ~ In DOT body ->
  let text := lit "SPLIT " ++ body ++ [DOT] in
  statement text 0 (length text).
Proof.
  intros Hdot text.
  exists (lit "SPLIT"), ([32%N] ++ body).
  split; [rewrite seg_whole; reflexivity|]. split; [lia|].
  split; [apply ci_eq_ascii; [reflexivity|repeat constructor]|].
  split.
  { intros [H|H]; [discriminate|auto]. }
  unfold text. rewrite !at_boundary_ascii by (reflexivity || (simpl; lia)).
  split; reflexivity.
Qed.

(** X9.  The two forms that the suggestion shows are compliant: a text
    made of the keyword SPLIT, a blank, any text without a full stop, and
    [ IN CHARACTER MODE.] or [ IN BYTE MODE.] is one statement that holds
    the qualifier, and its scan has no finding. *)
Theorem suggested_forms_have_no_finding (u : Unit.t) (body : str) :
  ~ In DOT body ->
  source_text u = lit "SPLIT " ++ body ++ lit " IN CHARACTER MODE." \/
  source_text u = lit "SPLIT " ++ body ++ lit " IN BYTE MODE." ->
  statement (source_text u) 0 (length (source_text u)) /\
  has_mode_qualifier (source_text u) /\
  findings u = [].
Proof.
  intros Hdot Htext.
  assert (H : statement (source_text u) 0 (length (source_text u)) /\
              has_mode_qualifier (source_text u)).
  { destruct Htext as [E|E]; rewrite E.
    - split.
      + change (lit " IN CHARACTER MODE.")
          with (lit " IN CHARACTER MODE" ++ [DOT]).
        rewrite (app_assoc body).
        apply (keyword_then_body (body ++ lit " IN CHARACTER MODE")).
        intros Hin. apply in_app_or in Hin. destruct Hin as [Hin|Hin]; [auto|].
        vm_compute in Hin.
        repeat (destruct Hin as [Hin|Hin]; [discriminate Hin|]). exact Hin.
      + rewrite app_assoc. eexists _, _.
        apply qualifier_shift; [|apply qualifier_character]. lia.
    - split.
      + change (lit " IN BYTE MODE.") with (lit " IN BYTE MODE" ++ [DOT]).
        rewrite (app_assoc body).
        apply (keyword_then_body (body ++ lit " IN BYTE MODE")).
        intros Hin. apply in_app_or in Hin. destruct Hin as [Hin|Hin]; [auto|].
        vm_compute in Hin.
        repeat (destruct Hin as [Hin|Hin]; [discriminate Hin|]). exact Hin.
      + rewrite app_assoc. eexists _, _.
        apply qualifier_shift; [|apply qualifier_byte]. lia. }
  destruct H as [Hst Hq]. split; [exact Hst|]. split; [exact Hq|].
  exact (proj1 (proj2 (one_statement_scan u Hst)) Hq).
Qed.
End Remediation.

(** ** The scan of a text cut after a full stop *)

Section Composition.
Context {U : UnicodeDB}.
Hypothesis faithful : ascii_faithful U.

Lemma dot_not_word : @is_word U DOT = false.
Proof.
  unfold is_word. destruct (faithful DOT) as (Ha & _); [reflexivity|].
  rewrite Ha. reflexivity.
Qed.

Lemma dot_not_keyword (kw : str) : @ci_eq U "SPLIT" kw -> ~ In DOT kw.
Proof.
  assert (D : forall p, In p (lit "SPLIT") -> @lit_match U p DOT = false).
  { intros p Hp. unfold lit_match.
    destruct (faithful DOT) as (_ & _ & Hl); [reflexivity|]. rewrite Hl.
    simpl in Hp.
    repeat (destruct Hp as [<-|Hp]; [reflexivity|]). contradiction. }
  unfold ci_eq. generalize (lit "SPLIT") D. intros ps Dps H.
  induction H as [|p c ps t Hc Ht IH]; [auto|].
  intros [->|Hin].
  - rewrite Dps in Hc by (left; reflexivity). discriminate.
  - apply IH; [|exact Hin]. intros q Hq. apply Dps. right. exact Hq.
Qed.

Variables a s2 : str.

(** The first part, which ends with a full stop, and its length. *)
Let s1 : str := a ++ [DOT].
Let n : nat := length s1.

Lemma s1_last : nth_error (s1 ++ s2) (n - 1) = Some DOT.
Proof.
  unfold n, s1. rewrite nth_error_app1 by (rewrite length_app; simpl; lia).
  rewrite nth_error_app2 by (rewrite length_app; simpl; lia).
  rewrite length_app. simpl.
  replace (length a + 1 - 1 - length a) with 0 by lia. reflexivity.
Qed.

Lemma n_positive : 0 < n.
Proof. unfold n, s1. rewrite length_app. simpl. lia. Qed.

(** A statement that starts in the first part ends in it. *)
Lemma statement_of_first_part (i e : nat) :
  i < n -> (statement (s1 ++ s2) i e <-> statement s1 i e).
Proof.
  intros Hi. split.
  - intros H.
    assert (He : e <= length s1).
    { fold n. pose proof (statement_indices _ _ _ H) as (Hr & Hd & Hn).
      destruct (Nat.le_gt_cases e n) as [|Hgt]; [assumption|]. exfalso.
      destruct (Nat.le_gt_cases (i + 5) (n - 1)) as [Hin|Hout].
      - apply (Hn (n - 1)); [lia|apply s1_last].
      - destruct H as (kw & body & Hseg & _ & Hkw & _).
        apply (dot_not_keyword kw Hkw).
        pose proof (ci_eq_length _ _ Hkw) as L. simpl in L.
        apply nth_error_In with (n := n - 1 - i).
        rewrite <- (nth_error_app1 kw (body ++ [DOT])) by lia.
        rewrite <- Hseg, seg_nth.
        replace (n - 1 - i <? e - i) with true
          by (symmetry; apply Nat.ltb_lt; lia).
        replace (i + (n - 1 - i)) with (n - 1) by lia. apply s1_last. }
    exact (proj1 (statement_in_prefix s1 s2 i e He) H).
  - intros H. pose proof (statement_indices _ _ _ H) as (Hr & _).
    assert (He : e <= length s1) by lia.
    exact (proj2 (statement_in_prefix s1 s2 i e He) H).
Qed.

Lemma at_boundary_after_dot (k : nat) :
  @at_boundary U (s1 ++ s2) (k + n) = @at_boundary U s2 k.
Proof.
  destruct k as [|k]; [|apply at_boundary_after_prefix; lia].
  unfold at_boundary, word_here, word_before. simpl.
  pose proof n_positive. destruct n as [|n'] eqn:En; [lia|].
  pose proof s1_last as L. rewrite En in L.
  replace (S n' - 1) with n' in L by lia. rewrite L, dot_not_word.
  rewrite <- En. unfold n. rewrite nth_error_app2 by lia.
  rewrite Nat.sub_diag. reflexivity.
Qed.

(** The statements of the second part are those of the whole text that
    start in it. *)
Lemma statement_of_second_part (i e : nat) :
  statement (s1 ++ s2) (i + n) (e + n) <-> statement s2 i e.
Proof.
  unfold statement. unfold n at 1 2. rewrite seg_after_prefix. fold n.
  replace (i + n + 5) with (i + 5 + n) by lia.
  rewrite !at_boundary_after_dot, length_app. fold n.
  split; intros (kw & body & Hseg & He & H); exists kw, body;
    (split; [exact Hseg|]); (split; [lia|exact H]).
Qed.

Lemma Scan_second_part (k : nat) (spans : list (nat * nat)) :
  Scan s2 STMT_RE k spans ->
  Scan (s1 ++ s2) STMT_RE (k + n) (map (shift n) spans).
Proof.
  intros HS.
  assert (L : length (s1 ++ s2) = n + length s2)
    by (rewrite length_app; reflexivity).
  induction HS as [k Hnone|k p e spans Hp He Hq HS IH]; simpl.
  - apply Scan_done. intros q Hq. apply no_statement_no_match; [lia|].
    intros e Hst. pose proof (statement_indices _ _ _ Hst) as (Hr & _).
    replace q with (q - n + n) in Hst by lia.
    replace e with (e - n + n) in Hst by lia.
    apply statement_of_second_part in Hst.
    eapply no_match_no_statement; [apply Hnone|exact Hst]. lia.
  - assert (Hst : statement s2 p e) by (apply STMT_match_at; [lia|exact He]).
    apply Scan_more.
    + simpl. lia.
    + simpl. apply STMT_match_at; [lia|].
      apply statement_of_second_part. exact Hst.
    + intros q Hq'. simpl in Hq'. apply no_statement_no_match; [lia|].
      intros e' Hst'. pose proof (statement_indices _ _ _ Hst') as (Hr & _).
      replace q with (q - n + n) in Hst' by lia.
      replace e' with (e' - n + n) in Hst' by lia.
      apply statement_of_second_part in Hst'.
      eapply no_match_no_statement; [apply Hq|exact Hst']. lia.
    + exact IH.
Qed.

Lemma Scan_first_part (pos : nat) (l1 l2 : list (nat * nat)) :
  Scan s1 STMT_RE pos l1 -> pos <= n ->
  Scan (s1 ++ s2) STMT_RE n l2 ->
  Scan (s1 ++ s2) STMT_RE pos (l1 ++ l2).
Proof.
  intros HS. induction HS as [pos Hnone|pos p e spans Hp He Hq HS IH];
    intros Hpos H2; simpl.
  - apply (Scan_from_earlier _ pos n); [exact Hpos| |exact H2].
    intros q e Hq Hst. apply statement_of_first_part in Hst; [|lia].
    eapply no_match_no_statement; [apply Hnone|exact Hst]. unfold n in *. lia.
  - assert (Hst : statement s1 p e) by (apply STMT_match_at; [lia|exact He]).
    pose proof (statement_indices _ _ _ Hst) as (Hr & _). fold n in Hr.
    apply Scan_more.
    + rewrite length_app. fold n. lia.
    + apply STMT_match_at; [rewrite length_app; fold n; lia|].
      apply statement_of_first_part; [lia|exact Hst].
    + intros q Hq'. apply no_statement_no_match;
        [rewrite length_app; fold n; lia|].
      intros e' Hst'. apply statement_of_first_part in Hst'; [|lia].
      eapply no_match_no_statement; [apply Hq|exact Hst']. lia.
    + apply IH; [lia|exact H2].
Qed.

Lemma finditer_cut :
  finditer STMT_RE (s1 ++ s2) =
  finditer STMT_RE s1 ++ map (shift n) (finditer STMT_RE s2).
Proof.
  apply finditer_unique. apply Scan_first_part.
  - apply finditer_STMT_Scan.
  - lia.
  - apply (Scan_second_part 0). apply finditer_STMT_Scan.
Qed.

Lemma reports_shift (m : nat * nat) :
  reports (s1 ++ s2) (shift n m) = reports s2 m.
Proof.
  unfold reports, shift. simpl. rewrite !slice_seg.
  unfold n. rewrite seg_after_prefix. reflexivity.
Qed.

Lemma line_shift (i : nat) :
  line_of_offset (s1 ++ s2) (Z.of_nat (i + n)) =
  (line_of_offset s2 (Z.of_nat i) + count_char NL s1)%Z.
Proof.
  rewrite !line_of_offset_nat. rewrite firstn_app.
  rewrite firstn_all2 by (fold n; lia). fold n.
  replace (i + n - n) with i by lia. rewrite count_char_app. lia.
Qed.

Lemma findings_cut_lines (src12 : str) :
  src12 = s1 ++ s2 ->
  map (fun m => line_of_offset src12 (Z.of_nat (fst m)))
      (filter (reports src12) (finditer STMT_RE src12)) =
  map (fun m => line_of_offset s1 (Z.of_nat (fst m)))
      (filter (reports s1) (finditer STMT_RE s1))
  ++ map (fun l => (l + count_char NL s1)%Z)
         (map (fun m => line_of_offset s2 (Z.of_nat (fst m)))
              (filter (reports s2) (finditer STMT_RE s2))).
Proof.
  intros ->. rewrite finditer_cut, filter_app, map_app. f_equal.
  - assert (Hin : forall m, In m (finditer STMT_RE s1) -> snd m <= length s1
                            /\ fst m <= length s1).
    { intros m Hm. pose proof (finditer_statements s1) as F.
      rewrite Forall_forall in F. apply F in Hm.
      apply statement_indices in Hm. lia. }
    rewrite (filter_ext_in _ (reports s1)).
    + apply map_ext_in. intros m Hm. apply filter_In in Hm.
      apply line_in_prefix. apply Hin. tauto.
    + intros m Hm. apply reports_in_prefix. apply Hin. exact Hm.
  - induction (finditer STMT_RE s2) as [|m rest IH]; [reflexivity|].
    simpl. rewrite reports_shift. destruct (reports s2 m); simpl.
    + rewrite IH. f_equal. apply line_shift.
    + exact IH.
Qed.
End Composition.

(** X10.  A text can be cut after any full stop: the matches of the whole
    text are the matches of the first part followed by the matches of the
    second part moved by the length of the first, and the lines of the
    findings of the whole are the lines of the findings of the first part
    followed by those of the second part, each raised by the number of
    newline characters of the first part. *)
Theorem scan_cut_after_full_stop (U : UnicodeDB) (u1 u2 u12 : Unit.t) (a : str) :
  ascii_faithful U ->
  source_text u1 = a ++ [DOT] ->
  source_text u12 = source_text u1 ++ source_text u2 ->
  @finditer U STMT_RE (source_text u12) =
    @finditer U STMT_RE (source_text u1)
    ++ map (shift (length (source_text u1)))
           (@finditer U STMT_RE (source_text u2)) /\
  map Finding.line (@findings U u12) =
    map Finding.line (@findings U u1)
    ++ map (fun l => (l + count_char NL (source_text u1))%Z)
           (map Finding.line (@findings U u2)).
Proof.
  intros HU H1 H12. split.
  - rewrite H12, H1. apply (@finditer_cut U HU).
  - rewrite !findings_run, !map_map.
    rewrite H1 in *.
    change (fun x : nat * nat =>
              Finding.line (finding_of u12 (source_text u12) x))
      with (fun m : nat * nat =>
              line_of_offset (source_text u12) (Z.of_nat (fst m))).
    change (fun x : nat * nat => Finding.line (finding_of u1 (a ++ [DOT]) x))
      with (fun m : nat * nat => line_of_offset (a ++ [DOT]) (Z.of_nat (fst m))).
    rewrite (@findings_cut_lines U HU a (source_text u2) (source_text u12) H12).
    rewrite map_map. reflexivity.
Qed.

(** ** The scan does not tell ASCII capitals from small letters *)

Section LetterCase.
Context {U : UnicodeDB}.
Hypothesis faithful : ascii_faithful U.

Lemma upper_bounds (c : char) :
  is_upper_ascii c = true -> (65 <= c <= 90)%N.
Proof.
  unfold is_upper_ascii. intros H. apply andb_true_iff in H.
  destruct H as [H1 H2]. apply N.leb_le in H1, H2. lia.
Qed.

Lemma lower_ascii_cases (c : char) :
  lower_ascii c = c \/ ((65 <= c <= 90)%N /\ lower_ascii c = (c + 32)%N).
Proof.
  unfold lower_ascii. destruct (is_upper_ascii c) eqn:E; [right|left; reflexivity].
  split; [apply upper_bounds; exact E|reflexivity].
Qed.

Lemma tolower_lower (c : char) :
  Py_UNICODE_TOLOWER (lower_ascii c) = Py_UNICODE_TOLOWER c.
Proof.
  destruct (lower_ascii_cases c) as [->|[Hb ->]]; [reflexivity|].
  destruct (faithful c) as (_ & _ & ->); [lia|].
  destruct (faithful (c + 32)%N) as (_ & _ & ->); [lia|].
  simpl. unfold lower_ascii, is_upper_ascii.
  replace (65 <=? c)%N with true by (symmetry; apply N.leb_le; lia).
  replace (c <=? 90)%N with true by (symmetry; apply N.leb_le; lia).
  replace (c + 32 <=? 90)%N with false by (symmetry; apply N.leb_gt; lia).
  rewrite andb_false_r. reflexivity.
Qed.

Lemma is_word_lower (c : char) : is_word (lower_ascii c) = is_word c.
Proof.
  destruct (lower_ascii_cases c) as [->|[Hb ->]]; [reflexivity|].
  unfold is_word.
  destruct (faithful c) as (-> & _); [lia|].
  destruct (faithful (c + 32)%N) as (-> & _); [lia|].
  simpl. unfold is_upper_ascii, is_lower_ascii.
  replace (65 <=? c)%N with true by (symmetry; apply N.leb_le; lia).
  replace (c <=? 90)%N with true by (symmetry; apply N.leb_le; lia).
  replace (97 <=? c + 32)%N with true by (symmetry; apply N.leb_le; lia).
  replace (c + 32 <=? 122)%N with true by (symmetry; apply N.leb_le; lia).
  simpl. rewrite !orb_true_r. reflexivity.
Qed.

Lemma isspace_lower (c : char) :
  Py_UNICODE_ISSPACE (lower_ascii c) = Py_UNICODE_ISSPACE c.
Proof.
  destruct (lower_ascii_cases c) as [->|[Hb ->]]; [reflexivity|].
  destruct (faithful c) as (_ & -> & _); [lia|].
  destruct (faithful (c + 32)%N) as (_ & -> & _); [lia|].
  simpl.
  replace (c <=? 13)%N with false by (symmetry; apply N.leb_gt; lia).
  replace (c <=? 32)%N with false by (symmetry; apply N.leb_gt; lia).
  replace (c + 32 <=? 13)%N with false by (symmetry; apply N.leb_gt; lia).
  replace (c + 32 <=? 32)%N with false by (symmetry; apply N.leb_gt; lia).
  rewrite !andb_false_r. reflexivity.
Qed.

Lemma uncased_eqb_lower (p c : char) :
  iscased_ascii p = false -> (lower_ascii c =? p)%N = (c =? p)%N.
Proof.
  intros Hp. destruct (lower_ascii_cases c) as [->|[Hb ->]]; [reflexivity|].
  unfold iscased_ascii, is_upper_ascii, is_lower_ascii in Hp.
  apply orb_false_iff in Hp. destruct Hp as [Hu Hl].
  destruct (N.eqb_spec (c + 32) p) as [E|E]; destruct (N.eqb_spec c p) as [E'|E'];
    try reflexivity; exfalso.
  - subst p. replace (97 <=? c + 32)%N with true in Hl
      by (symmetry; apply N.leb_le; lia).
    replace (c + 32 <=? 122)%N with true in Hl
      by (symmetry; apply N.leb_le; lia).
    discriminate.
  - subst p. replace (65 <=? c)%N with true in Hu
      by (symmetry; apply N.leb_le; lia).
    replace (c <=? 90)%N with true in Hu by (symmetry; apply N.leb_le; lia).
    discriminate.
Qed.

Lemma atom_match_lower (a : atom) (c : char) :
  case_blind_atom a = true ->
  atom_match a (lower_ascii c) = atom_match a c.
Proof.
  destruct a as [p|p|]; simpl; intros Ha.
  - unfold lit_match. destruct (iscased_ascii p) eqn:Ep.
    + rewrite tolower_lower. reflexivity.
    + apply uncased_eqb_lower. exact Ep.
  - apply negb_true_iff in Ha. rewrite uncased_eqb_lower by exact Ha.
    reflexivity.
  - apply isspace_lower.
Qed.

Lemma at_boundary_lower (s : str) (i : nat) :
  at_boundary (lower_text s) i = at_boundary s i.
Proof.
  assert (W : forall j, match nth_error (lower_text s) j with
                        | Some c => is_word c
                        | None => false
                        end =
                        match nth_error s j with
                        | Some c => is_word c
                        | None => false
                        end).
  { intros j. unfold lower_text. rewrite nth_error_map.
    destruct (nth_error s j); simpl; [apply is_word_lower|reflexivity]. }
  unfold at_boundary, word_here, word_before. rewrite W.
  destruct i as [|j]; [reflexivity|]. rewrite (W j). reflexivity.
Qed.

Lemma repeat_greedy_lower (a : atom) (rest : str) :
  case_blind_atom a = true ->
  forall i k1 k2, (forall j, k1 j = k2 j) ->
    repeat_greedy a (lower_text rest) i k1 = repeat_greedy a rest i k2.
Proof.
  intros Ha. induction rest as [|c rest IH]; intros i k1 k2 Hk; simpl;
    [apply Hk|].
  rewrite atom_match_lower by exact Ha.
  rewrite (IH (S i) k1 k2 Hk), Hk. reflexivity.
Qed.

Lemma run_lower (s : str) (r : regex) :
  case_blind r = true ->
  forall i k1 k2, (forall j, k1 j = k2 j) ->
    run (lower_text s) r i k1 = run s r i k2.
Proof.
  induction r as [|a| |r1 IH1 r2 IH2|r1 IH1 r2 IH2|a|a]; simpl; intros Hr i k1 k2 Hk.
  - apply Hk.
  - unfold lower_text. rewrite nth_error_map.
    destruct (nth_error s i) as [c|]; simpl; [|reflexivity].
    rewrite atom_match_lower by exact Hr. rewrite Hk. reflexivity.
  - rewrite at_boundary_lower, Hk. reflexivity.
  - apply andb_true_iff in Hr. destruct Hr as [H1 H2].
    apply IH1; [exact H1|]. intros j. apply IH2; assumption.
  - apply andb_true_iff in Hr. destruct Hr as [H1 H2].
    rewrite (IH1 H1 i k1 k2 Hk), (IH2 H2 i k1 k2 Hk). reflexivity.
  - unfold lower_text. rewrite skipn_map.
    apply repeat_greedy_lower; assumption.
  - unfold lower_text. rewrite nth_error_map.
    destruct (nth_error s i) as [c|] eqn:Hc; simpl; [|reflexivity].
    rewrite atom_match_lower by exact Hr.
    destruct (atom_match a c); [|reflexivity].
    change (match s with [] => [] | _ :: l => skipn i l end) with (skipn (S i) s).
    change (match map lower_ascii s with [] => [] | _ :: l => skipn i l end)
      with (skipn (S i) (map lower_ascii s)).
    rewrite skipn_map.
    apply repeat_greedy_lower; assumption.
Qed.

Lemma search_from_lower (s : str) (r : regex) (n : nat) :
  case_blind r = true ->
  forall i must,
    search_from (lower_text s) r n i must = search_from s r n i must.
Proof.
  intros Hr. induction n as [|n IH]; intros i must; simpl; [reflexivity|].
  unfold match_at. rewrite (run_lower s r Hr i _ _ (fun j => eq_refl)).
  rewrite IH. reflexivity.
Qed.

Lemma finditer_loop_lower (s : str) (r : regex) :
  case_blind r = true ->
  forall fuel pos must,
    finditer_loop (lower_text s) r fuel pos must = finditer_loop s r fuel pos must.
Proof.
  intros Hr.
  assert (L : length (lower_text s) = length s) by apply length_map.
  induction fuel as [|fuel IH]; intros pos must; simpl; [reflexivity|].
  unfold search_pos. rewrite L, search_from_lower by exact Hr.
  destruct (search_from s r (S (length s) - pos) pos must) as [[i e]|];
    [|reflexivity].
  rewrite IH. reflexivity.
Qed.

Lemma finditer_lower (s : str) (r : regex) :
  case_blind r = true -> finditer r (lower_text s) = finditer r s.
Proof.
  intros Hr. unfold finditer.
  replace (length (lower_text s)) with (length s)
    by (symmetry; apply length_map).
  apply finditer_loop_lower. exact Hr.
Qed.

Lemma slice_lower (s : str) (a b : Z) :
  slice (lower_text s) a b = lower_text (slice s a b).
Proof.
  unfold slice, lower_text, len. rewrite length_map, skipn_map, firstn_map.
  reflexivity.
Qed.

Lemma reports_lower (s : str) (m : nat * nat) :
  reports (lower_text s) m = reports s m.
Proof.
  unfold reports, search, search_pos. rewrite slice_lower.
  rewrite search_from_lower by reflexivity.
  unfold lower_text. rewrite length_map. reflexivity.
Qed.

Lemma line_lower (s : str) (i : Z) :
  line_of_offset (lower_text s) i = line_of_offset s i.
Proof.
  unfold line_of_offset, count. rewrite slice_lower. f_equal.
  unfold count_char, lower_text. f_equal.
  generalize (slice s 0 i) as t.
  induction t as [|c t IH]; cbn [map filter]; [reflexivity|].
  rewrite (N.eqb_sym NL (lower_ascii c)), (N.eqb_sym NL c).
  rewrite (uncased_eqb_lower NL c) by reflexivity.
  destruct (N.eqb c NL); cbn [length]; rewrite IH; reflexivity.
Qed.

Lemma lines_lower (s : str) :
  map (fun m => line_of_offset (lower_text s) (Z.of_nat (fst m)))
      (filter (reports (lower_text s)) (finditer STMT_RE (lower_text s)))
  = map (fun m => line_of_offset s (Z.of_nat (fst m)))
        (filter (reports s) (finditer STMT_RE s)).
Proof.
  rewrite finditer_lower by reflexivity.
  rewrite (filter_ext _ _ (reports_lower s)).
  apply map_ext. intros m. apply line_lower.
Qed.
End LetterCase.

(** X11.  Two texts that differ only in the case of ASCII letters have
    the same matches, and units with such texts have findings on the same
    lines. *)
Theorem scan_ignores_ascii_case (U : UnicodeDB) (u1 u2 : Unit.t) :
  ascii_faithful U ->
  lower_text (source_text u1) = lower_text (source_text u2) ->
  @finditer U STMT_RE (source_text u1) = @finditer U STMT_RE (source_text u2) /\
  map Finding.line (@findings U u1) = map Finding.line (@findings U u2).
Proof.
  intros HU E. split.
  - rewrite <- (@finditer_lower U HU (source_text u1)) by reflexivity.
    rewrite <- (@finditer_lower U HU (source_text u2)) by reflexivity.
    rewrite E. reflexivity.
  - rewrite !findings_run, !map_map. simpl.
    rewrite <- (@lines_lower U HU (source_text u1)).
    rewrite <- (@lines_lower U HU (source_text u2)).
    rewrite E. reflexivity.
Qed.

(** ** The further properties on concrete units *)

Lemma ascii_db_faithful : ascii_faithful ascii_db.
Proof. intros c _. repeat split. Qed.

Ltac no_full_stop :=
  let H := fresh "H" in
  intros H; vm_compute in H;
  repeat (destruct H as [H|H]; [discriminate H|]); exact H.

Lemma snippet_at_parts_witness :
  47 <= 90 <= length (source_text three_statements) /\
  length (seg (source_text three_statements) (47 - 60) 47) <= 60 /\
  length (seg (source_text three_statements) 90
              (Nat.min (length (source_text three_statements)) (90 + 60))) <= 60.
Proof.
  assert (H : 47 <= 90 <= length (source_text three_statements))
    by (vm_compute; lia).
  split; [exact H|].
  destruct (snippet_at_parts (source_text three_statements) 47 90 H)
    as (_ & Hb & Ha & _).
  split; [exact Hb|exact Ha].
Defined.

Lemma trailing_text_ignored_witness :
  source_text with_trailer = source_text non_compliant ++ lit trailer /\
  ~ In DOT (lit trailer) /\
  map Finding.line (findings with_trailer)
  = map Finding.line (findings non_compliant).
Proof.
  assert (E : source_text with_trailer
              = source_text non_compliant ++ lit trailer)
    by (vm_compute; reflexivity).
  assert (H : ~ In DOT (lit trailer)) by no_full_stop.
  split; [exact E|]. split; [exact H|].
  exact (proj2 (proj2 (trailing_text_ignored non_compliant with_trailer
                         (lit trailer) E H))).
Defined.

Lemma single_statement_text_witness :
  statement (source_text non_compliant) 0 (length (source_text non_compliant)) /\
  ~ has_mode_qualifier (source_text non_compliant) /\
  exists f, findings non_compliant = [f] /\ Finding.line f = 1%Z.
Proof.
  assert (H : statement (source_text non_compliant) 0
                        (length (source_text non_compliant))).
  { apply STMT_match_at; [apply Nat.leb_le|]; vm_compute; reflexivity. }
  assert (Q : ~ has_mode_qualifier (source_text non_compliant)).
  { apply has_mode_false_iff. vm_compute. reflexivity. }
  split; [exact H|]. split; [exact Q|].
  destruct (single_statement_text non_compliant H) as (_ & _ & Hf).
  destruct (Hf Q) as (f & Ef & Hl & _).
  exists f. split; [exact Ef|exact Hl].
Defined.

Lemma suggested_forms_have_no_finding_witness :
  ~ In DOT (lit "lv_text AT '/' INTO lv1 lv2") /\
  source_text compliant
  = lit "SPLIT " ++ lit "lv_text AT '/' INTO lv1 lv2"
    ++ lit " IN CHARACTER MODE." /\
  findings compliant = [].
Proof.
  assert (H : ~ In DOT (lit "lv_text AT '/' INTO lv1 lv2")) by no_full_stop.
  assert (E : source_text compliant
              = lit "SPLIT " ++ lit "lv_text AT '/' INTO lv1 lv2"
                ++ lit " IN CHARACTER MODE.") by (vm_compute; reflexivity).
  split; [exact H|]. split; [exact E|].
  exact (proj2 (proj2 (@suggested_forms_have_no_finding ascii_db
                         ascii_db_faithful compliant
                         (lit "lv_text AT '/' INTO lv1 lv2") H
                         (or_introl E)))).
Defined.

Lemma scan_cut_after_full_stop_witness :
  source_text first_part = lit first_part_body ++ [DOT] /\
  source_text both_parts = source_text first_part ++ source_text second_part /\
  map Finding.line (findings both_parts)
  = map Finding.line (findings first_part)
    ++ map (fun l => (l + count_char NL (source_text first_part))%Z)
           (map Finding.line (findings second_part)).
Proof.
  assert (E1 : source_text first_part = lit first_part_body ++ [DOT])
    by (vm_compute; reflexivity).
  assert (E2 : source_text both_parts
               = source_text first_part ++ source_text second_part)
    by (vm_compute; reflexivity).
  split; [exact E1|]. split; [exact E2|].
  exact (proj2 (scan_cut_after_full_stop ascii_db first_part second_part
                  both_parts (lit first_part_body) ascii_db_faithful E1 E2)).
Defined.

Lemma scan_ignores_ascii_case_witness :
  lower_text (source_text non_compliant)
  = lower_text (source_text non_compliant_small) /\
  map Finding.line (findings non_compliant)
  = map Finding.line (findings non_compliant_small).
Proof.
  assert (E : lower_text (source_text non_compliant)
              = lower_text (source_text non_compliant_small))
    by (vm_compute; reflexivity).
  split; [exact E|].
  exact (proj2 (scan_ignores_ascii_case ascii_db non_compliant
                  non_compliant_small ascii_db_faithful E)).
Defined.

(** The lines of the findings of the parts and of the whole. *)
Example both_parts_lines :
  map Finding.line (findings first_part) = [2]%Z /\
  map Finding.line (findings second_part) = [2; 3]%Z /\
  map Finding.line (findings both_parts) = [2; 3; 4]%Z.
Proof. repeat split; vm_compute; reflexivity. Qed.
